(** * Patch validation and application engine of glitsy (server/validate.ts)

    A shallow embedding of [src/server/validate.ts]: the structural validator
    (the zod schema [operationSchema] / [patchSchema]), the semantic validator
    ([validatePatchSemantics] with its helpers [pointerParent], [getType],
    [pathExists], [parentExists]) and the applicator
    ([applyPatchWithValidation]).

    Around it, the string code of its callers: the upload filter, the
    handler of [/api/modify] and the safe name of [/api/pack]
    (server/index.ts), [parsePatchResponse] (server/llm.ts) and the download
    name of [handleDownload] (src/App.tsx).

    Documents are JSON trees.  Objects are finite maps from strings, so that
    deep equality of documents is Leibniz equality.  Pointers are the strings
    the code manipulates (regular expression, [split], [join]). *)

From stdpp Require Import gmap strings list fin_maps.
From Stdlib Require Import ZArith QArith Qcanon Ascii String.

Local Close Scope Qc_scope.
Local Close Scope Q_scope.
Local Open Scope string_scope.
Local Open Scope list_scope.

(** ** JSON values *)

Module Json.

(** A JSON-like tree.  A number is the rational its literal denotes, in
    lowest terms, so that equal numbers are equal terms; the engine looks
    at the kind of a number and compares numbers, and never computes with
    them. *)
#[warnings="-register-all"]
Inductive json : Type :=
  | JNull
  | JBool (b : bool)
  | JNum (q : Qc)
  | JStr (s : string)
  | JArr (l : list json)
  | JObj (m : gmap string json).

#[global] Instance json_inhabited : Inhabited json := populate JNull.

(** The number a literal denotes. *)
Definition num (q : Q) : json := JNum (Q2Qc q).

(** Deep equality is decidable; the decision procedure recurses through the
    list and map instances. *)
#[global] Instance json_eq_dec : EqDecision json.
Proof.
  refine (fix go (x y : json) {struct x} : Decision (x = y) :=
    let _ : EqDecision json := go in
    match x, y with
    | JNull, JNull => left eq_refl
    | JBool a, JBool b => cast_if (decide (a = b))
    | JNum a, JNum b => cast_if (decide (a = b))
    | JStr a, JStr b => cast_if (decide (a = b))
    | JArr a, JArr b => cast_if (decide (a = b))
    | JObj a, JObj b => cast_if (decide (a = b))
    | _, _ => right _
    end); congruence.
Defined.

(** What the code holds where it reads a member of a document: a JSON
    value, or JavaScript's [undefined], the answer for a member that is not
    there. *)
Inductive jsvalue : Type :=
  | Undefined
  | Defined (v : json).

Coercion Defined : json >-> jsvalue.

#[global] Instance jsvalue_eq_dec : EqDecision jsvalue.
Proof. solve_decision. Defined.

(** [getType] (validate.ts, lines 50-54): ['null'], ['array'] or JavaScript's
    [typeof], which is ['undefined'] for [undefined]. *)
Definition getType (value : jsvalue) : string :=
  match value with
  | Undefined => "undefined"
  | Defined JNull => "null"
  | Defined (JArr _) => "array"
  | Defined (JBool _) => "boolean"
  | Defined (JNum _) => "number"
  | Defined (JStr _) => "string"
  | Defined (JObj _) => "object"
  end.

(** [value === null] *)
Definition is_null (value : jsvalue) : bool :=
  match value with Defined JNull => true | _ => false end.

End Json.
Export Json.

(** ** Regular expressions

    The pointer grammar of the code is a regular expression literal.  It is
    embedded as a syntax tree and run with a derivative matcher; [re_match]
    is the usual declarative semantics the matcher is proved against. *)

Module Regex.

Inductive regex : Type :=
  | Void
  | Eps
  | Chr (c : ascii)
  | NotOf (cs : list ascii)          (* a negated class [^...] *)
  | Cat (r1 r2 : regex)
  | Alt (r1 r2 : regex)
  | Star (r : regex).

Fixpoint nullable (r : regex) : bool :=
  match r with
  | Void => false
  | Eps => true
  | Chr _ => false
  | NotOf _ => false
  | Cat r1 r2 => nullable r1 && nullable r2
  | Alt r1 r2 => nullable r1 || nullable r2
  | Star _ => true
  end.

Fixpoint deriv (a : ascii) (r : regex) : regex :=
  match r with
  | Void => Void
  | Eps => Void
  | Chr c => if decide (a = c) then Eps else Void
  | NotOf cs => if decide (a ∈ cs) then Void else Eps
  | Cat r1 r2 =>
      if nullable r1 then Alt (Cat (deriv a r1) r2) (deriv a r2)
      else Cat (deriv a r1) r2
  | Alt r1 r2 => Alt (deriv a r1) (deriv a r2)
  | Star r1 => Cat (deriv a r1) (Star r1)
  end.

(** [matches r s]: the whole of [s] is matched by [r], as [/^r$/.test(s)]. *)
Fixpoint matches (r : regex) (s : string) : bool :=
  match s with
  | EmptyString => nullable r
  | String a s' => matches (deriv a r) s'
  end.

Inductive re_match : regex → string → Prop :=
  | MEps : re_match Eps ""
  | MChr c : re_match (Chr c) (String c "")
  | MNotOf cs c : c ∉ cs → re_match (NotOf cs) (String c "")
  | MCat r1 r2 s1 s2 :
      re_match r1 s1 → re_match r2 s2 →
      re_match (Cat r1 r2) (s1 ++ s2)%string
  | MAltL r1 r2 s : re_match r1 s → re_match (Alt r1 r2) s
  | MAltR r1 r2 s : re_match r2 s → re_match (Alt r1 r2) s
  | MStarNil r : re_match (Star r) ""
  | MStarCons r s1 s2 :
      re_match r s1 → re_match (Star r) s2 →
      re_match (Star r) (s1 ++ s2)%string.

End Regex.
Export Regex.

(** ** Pointers as strings *)

Module Pointer.

(** [s.split('/')]: the pieces between the separators; never empty. *)
Fixpoint split (sep : ascii) (s : string) : list string :=
  match s with
  | EmptyString => [""]
  | String c s' =>
      if decide (c = sep) then "" :: split sep s'
      else match split sep s' with
           | [] => [String c ""]
           | seg :: segs => String c seg :: segs
           end
  end.

(** [segments.join('/')] *)
Fixpoint join (sep : string) (segs : list string) : string :=
  match segs with
  | [] => ""
  | [seg] => seg
  | seg :: segs' => (seg ++ sep ++ join sep segs')%string
  end.

(** [xs.slice(0, -1)] *)
Definition slice_init {A} (xs : list A) : list A := take (List.length xs - 1) xs.

(** One segment token of the pattern, written T below: the alternation
    of the negated class of [~] and [/], of [~0], and of [~1]. *)
Definition token : regex :=
  Alt (NotOf ["~"; "/"]%char)
      (Alt (Cat (Chr "~") (Chr "0")) (Cat (Chr "~") (Chr "1"))).

(** [jsonPointerPattern] (validate.ts, line 4), anchored at both ends:
    a slash, any number of T, then any number of groups made of a slash
    followed by any number of T. *)
Definition jsonPointerPattern : regex :=
  Cat (Chr "/")
      (Cat (Star token) (Star (Cat (Chr "/") (Star token)))).

(** [jsonPointerPattern.test(s)] *)
Definition jsonPointerPattern_test (s : string) : bool :=
  matches jsonPointerPattern s.

(** The grammar in words: every [~] is followed by [0] or [1]. *)
Fixpoint tilde_ok (s : string) : bool :=
  match s with
  | EmptyString => true
  | String c s' =>
      if decide (c = "~"%char) then
        match s' with
        | String d s'' =>
            (bool_decide (d = "0"%char) || bool_decide (d = "1"%char))
            && tilde_ok s''
        | EmptyString => false
        end
      else tilde_ok s'
  end.

End Pointer.
Export Pointer.

(** ** Results *)

Inductive result (E A : Type) : Type :=
  | Ok (a : A)
  | Err (e : E).
Arguments Ok {E A} a.
Arguments Err {E A} e.

Definition is_ok {E A} (r : result E A) : bool :=
  match r with Ok _ => true | Err _ => false end.

Definition is_err {E A} (r : result E A) : bool := negb (is_ok r).

(** ** Structural validation: [operationSchema], [patchSchema] *)

Module Structure.

(** [z.enum(['add', 'remove', 'replace', 'copy', 'move', 'test'])] *)
Inductive opkind : Type := Add | Remove | Replace | Copy | Move | Test.

#[global] Instance opkind_eq_dec : EqDecision opkind.
Proof. solve_decision. Defined.

Definition opkind_name (k : opkind) : string :=
  match k with
  | Add => "add" | Remove => "remove" | Replace => "replace"
  | Copy => "copy" | Move => "move" | Test => "test"
  end.

Definition parse_opkind (s : string) : option opkind :=
  if decide (s = "add") then Some Add
  else if decide (s = "remove") then Some Remove
  else if decide (s = "replace") then Some Replace
  else if decide (s = "copy") then Some Copy
  else if decide (s = "move") then Some Move
  else if decide (s = "test") then Some Test
  else None.

(** An element of [ValidatedPatch].  An optional key that is absent from
    the object reads as [undefined] in the code and is [None] here; a JSON
    value is never [undefined], so ['value' in op] and
    [op.value !== undefined] both are [is_Some (value o)]. *)
Record operation : Type := Operation {
  op : opkind;
  path : string;
  from : option string;
  value : option json
}.

Definition ValidatedPatch : Type := list operation.

(** The issues of a [ZodError], named after the error kinds of the
    specification.  [InvalidType] is zod's own complaint about a field of
    the wrong type (or a required field that is missing). *)
Inductive StructuralError : Type :=
  | InvalidType
  | UnknownOperationKind       (* the enum does not list the string *)
  | MalformedPointer           (* 'Invalid JSON Pointer' *)
  | MissingRequiredValue       (* '<op> requires a value' *)
  | MissingOrMalformedFrom.    (* '<op> requires a from pointer', 'Invalid from pointer' *)

#[global] Instance StructuralError_eq_dec : EqDecision StructuralError.
Proof. solve_decision. Defined.

(** An issue carries the index of the array element it is about. *)
Inductive issue : Type :=
  | TopLevel (e : StructuralError)
  | AtIndex (i : nat) (e : StructuralError).

#[global] Instance issue_eq_dec : EqDecision issue.
Proof. solve_decision. Defined.

(** A field parser yields the parsed value unless the field aborts, and
    the issues it raised.  A failed [regex] check raises an issue without
    aborting; a wrong type aborts. *)
Definition field (A : Type) : Type := option A * list StructuralError.

(** [op: z.enum([...])] *)
Definition parse_op (f : option json) : field opkind :=
  match f with
  | Some (JStr s) =>
      match parse_opkind s with
      | Some k => (Some k, [])
      | None => (None, [UnknownOperationKind])
      end
  | _ => (None, [InvalidType])
  end.

(** [path: z.string().regex(jsonPointerPattern, 'Invalid JSON Pointer')] *)
Definition parse_path (f : option json) : field string :=
  match f with
  | Some (JStr s) =>
      (Some s, if jsonPointerPattern_test s then [] else [MalformedPointer])
  | _ => (None, [InvalidType])
  end.

(** [from: z.string().optional()] *)
Definition parse_from (f : option json) : field (option string) :=
  match f with
  | None => (Some None, [])
  | Some (JStr s) => (Some (Some s), [])
  | Some _ => (None, [InvalidType])
  end.

(** [value: z.unknown().optional()] *)
Definition parse_value (f : option json) : field (option json) := (Some f, []).

(** JavaScript truthiness of [op.from]: present and not the empty string. *)
Definition truthy (f : option string) : bool :=
  match f with
  | Some s => negb (bool_decide (s = ""))
  | None => false
  end.

(** The [superRefine] callback (validate.ts, lines 13-29). *)
Definition superRefine (o : operation) : list StructuralError :=
  (if bool_decide (op o = Add) || bool_decide (op o = Replace)
      || bool_decide (op o = Test)
   then match value o with
        | None => [MissingRequiredValue]
        | Some _ => []
        end
   else [])
  ++ (if (bool_decide (op o = Copy) || bool_decide (op o = Move))
         && negb (truthy (from o))
      then [MissingOrMalformedFrom] else [])
  ++ (if bool_decide (op o = Move) || bool_decide (op o = Copy)
      then match from o with
           | Some f =>
               if truthy (Some f) && negb (jsonPointerPattern_test f)
               then [MissingOrMalformedFrom] else []
           | None => []
           end
      else []).

(** [operationSchema]: the object schema, then the refinement.  Every field
    is parsed and its issues are kept; the refinement runs unless a field
    aborted. *)
Definition operationSchema (candidate : json) : field operation :=
  match candidate with
  | JObj m =>
      let '(k, i1) := parse_op (m !! "op") in
      let '(p, i2) := parse_path (m !! "path") in
      let '(f, i3) := parse_from (m !! "from") in
      let '(v, i4) := parse_value (m !! "value") in
      let fields := i1 ++ i2 ++ i3 ++ i4 in
      match k, p, f, v with
      | Some k, Some p, Some f, Some v =>
          let o := Operation k p f v in
          (Some o, fields ++ superRefine o)
      | _, _, _, _ => (None, fields)
      end
  | _ => (None, [InvalidType])
  end.

(** The elements of [z.array(operationSchema)], from index [i] on. *)
Fixpoint parse_elements (i : nat) (candidates : list json)
  : list (option operation) * list issue :=
  match candidates with
  | [] => ([], [])
  | c :: cs =>
      let '(o, es) := operationSchema c in
      let '(os, more) := parse_elements (S i) cs in
      (o :: os, map (AtIndex i) es ++ more)
  end.

(** [patchSchema = z.array(operationSchema)] *)
Definition patchSchema (candidate : json) : result (list issue) ValidatedPatch :=
  match candidate with
  | JArr cs =>
      let '(os, issues) := parse_elements 0 cs in
      match issues with
      | [] => Ok (omap id os)
      | _ => Err issues
      end
  | _ => Err [TopLevel InvalidType]
  end.

(** [validatePatchStructure] (validate.ts, lines 35-37): [parse] throws the
    [ZodError] holding the issues. *)
Definition validatePatchStructure (patch : json)
  : result (list issue) ValidatedPatch :=
  patchSchema patch.

End Structure.
Export Structure.

(** ** The pointer resolver *)

Module Resolver.

(** A decimal digit. *)
Definition digit_of (c : ascii) : option nat :=
  let n := nat_of_ascii c in
  if ((48 <=? n) && (n <=? 57))%nat then Some (n - 48) else None.

Fixpoint parse_digits (acc : nat) (s : string) : option nat :=
  match s with
  | EmptyString => Some acc
  | String c s' =>
      match digit_of c with
      | Some d => parse_digits (10 * acc + d) s'
      | None => None
      end
  end.

(** A non-negative integer string. *)
Definition parse_index (s : string) : option nat :=
  match s with
  | EmptyString => None
  | _ => parse_digits 0 s
  end.

(** The escapes of a segment: [~1] stands for [/] and [~0] for [~]. *)
Fixpoint unescapePathComponent (s : string) : string :=
  match s with
  | EmptyString => EmptyString
  | String c s' =>
      if decide (c = "~"%char) then
        match s' with
        | String d s'' =>
            if decide (d = "1"%char)
            then String "/" (unescapePathComponent s'')
            else if decide (d = "0"%char)
            then String "~" (unescapePathComponent s'')
            else String c (String d (unescapePathComponent s''))
        | EmptyString => String c EmptyString
        end
      else String c (unescapePathComponent s')
  end.

(** The segments of a pointer string: none for the root pointer, the
    unescaped pieces after each slash otherwise.  A non-empty string
    without a leading slash names no location. *)
Definition parsePointer (pointer : string) : option (list string) :=
  match pointer with
  | EmptyString => Some []
  | String c rest =>
      if decide (c = "/"%char)
      then Some (map unescapePathComponent (split "/" rest))
      else None
  end.

(** Modelled from the spec: [resolve] of section 4.1, the lookup the
    operations of the applicator (section 4.4) read a value with, and what
    "exists" means in the specification.  One segment at a time, the current
    node must be a map holding the segment as a key, or a sequence with the
    segment a non-negative integer string below its length; anything else is
    NotFound ([None]).  A lookup has no append semantics, so the marker [-]
    names no element. *)
Fixpoint resolve (document : json) (segments : list string) : option json :=
  match segments with
  | [] => Some document
  | k :: rest =>
      match document with
      | JObj m =>
          match m !! k with
          | Some child => resolve child rest
          | None => None
          end
      | JArr l =>
          match parse_index k with
          | Some i =>
              match l !! i with
              | Some child => resolve child rest
              | None => None
              end
          | None => None
          end
      | _ => None
      end
  end.

(** Modelled from the spec: [getValueByPointer] of the fast-json-patch
    package is not part of the sources.  It walks the segments as section
    4.1 says, but it is the package's unchecked lookup, a chain of plain
    member accesses [obj[key]], and differs from [resolve] where [resolve]
    says NotFound.

    [member container key] is one access.  A key a map does not hold and an
    index a sequence does not have give [undefined], as does any member of a
    string, number or boolean; only an access into [null] throws ([None]).
    In a sequence the marker [-] stands for the length and a key made of
    digits (none included) for the number it denotes.  The members
    JavaScript itself defines ([length], the characters of a string,
    inherited methods) and the package's refusal of the key [__proto__] are
    outside the model. *)
Definition member (container : json) (key : string) : option jsvalue :=
  match container with
  | JNull => None
  | JObj m =>
      Some (match m !! key with
            | Some child => Defined child
            | None => Undefined
            end)
  | JArr l =>
      Some (if decide (key = "-") then Undefined
            else match parse_digits 0 key ≫= (l !!.) with
                 | Some child => Defined child
                 | None => Undefined
                 end)
  | JBool _ | JNum _ | JStr _ => Some Undefined
  end.

(** The walk: the value of the last access is returned as it is, also when
    it is [undefined]; an access into [undefined] or [null] on the way
    throws ([None]). *)
Fixpoint lookup (document : json) (keys : list string) : option jsvalue :=
  match keys with
  | [] => Some (Defined document)
  | key :: rest =>
      match member document key with
      | Some (Defined child) => lookup child rest
      | Some Undefined =>
          match rest with
          | [] => Some Undefined
          | _ :: _ => None
          end
      | None => None
      end
  end.

(** The keys of the walk: the pieces of the pointer after its first slash,
    unescaped; what comes before the first slash is not looked at. *)
Definition keys (pointer : string) : list string :=
  map unescapePathComponent (tail (split "/" pointer)).

(** The empty pointer is the document.  A text without any slash reads
    the member of the key [undefined], which throws in a sequence. *)
Definition getValueByPointer (document : json) (pointer : string)
  : option jsvalue :=
  if decide (pointer = "") then Some (Defined document)
  else
    match keys pointer with
    | [] =>
        match document with
        | JArr _ => None
        | _ => member document "undefined"
        end
    | key :: rest => lookup document (key :: rest)
    end.

End Resolver.
Export Resolver.

(** ** Semantic validation *)

Module Semantics.

(** What the engine throws after structural validation.  The first four
    are the [Error]s of [validatePatchSemantics], with the names the
    specification gives them; [error_message] is their text.  [NotFound] is
    the exception of the resolver, [TestFailed] and [CannotApply] are those
    of the applicator; their text belongs to the package. *)
Inductive SemanticError : Type :=
  | PathNotFound (path : string) (op : opkind)
  | ParentMissing (path : string)
  | SourceNotFound (from : string) (op : opkind)
  | TypeMismatch (path expected received : string)
  | NotFound (pointer : string)
  | TestFailed (path : string)
  | CannotApply (op : opkind) (path : string).

#[global] Instance SemanticError_eq_dec : EqDecision SemanticError.
Proof. solve_decision. Defined.

(** The template literals of validate.ts, lines 81, 86, 91 and 101. *)
Definition error_message (e : SemanticError) : option string :=
  match e with
  | PathNotFound p k =>
      Some ("Path " ++ p ++ " does not exist for operation " ++ opkind_name k)
  | ParentMissing p =>
      Some ("Cannot add value at " ++ p ++ " because parent path is missing.")
  | SourceNotFound f k =>
      Some ("Source path " ++ f ++ " does not exist for operation "
            ++ opkind_name k)
  | TypeMismatch p e r =>
      Some ("Type mismatch at " ++ p ++ ": expected " ++ e ++ ", received " ++ r)
  | NotFound _ | TestFailed _ | CannotApply _ _ => None
  end%string.

(** [pointerParent] (validate.ts, lines 39-48); [None] is [null]. *)
Definition pointerParent (path : string) : option string :=
  if decide (path = "") then None
  else
    let segments := slice_init (split "/" path) in
    if decide (List.length segments ≤ 1)%nat then Some "/"
    else
      let joined := join "/" segments in
      Some (if decide (joined = "") then "/" else joined).

(** [pathExists] (validate.ts, lines 56-63) *)
Definition pathExists (document : json) (pointer : string) : bool :=
  match getValueByPointer document pointer with
  | Some _ => true
  | None => false
  end.

(** [parentExists] (validate.ts, lines 65-75) *)
Definition parentExists (document : json) (pointer : string) : bool :=
  if bool_decide (pointer = "/") || bool_decide (pointer = "") then true
  else
    match pointerParent pointer with
    | None => true
    | Some parent =>
        if bool_decide (parent = "") then true
        else if bool_decide (parent = "/")
                && bool_decide (List.length (split "/" pointer) = 2)
        then true
        else pathExists document parent
    end.

(** The type check of a [replace] (validate.ts, lines 95-106). *)
Definition check_replace_type (document : json) (o : operation)
  : result SemanticError unit :=
  match value o with
  | Some next =>
      match getValueByPointer document (path o) with
      | Some current =>
          let currentType := getType current in
          let nextType := getType next in
          if negb (is_null current) && negb (is_null next)
             && negb (bool_decide (currentType = nextType))
          then Err (TypeMismatch (path o) currentType nextType)
          else Ok tt
      | None => Err (NotFound (path o))
      end
  | None => Ok tt
  end.

(** The body of the loop of [validatePatchSemantics] for one operation:
    the four [if] statements in order, the first [throw] wins. *)
Definition check_operation (document : json) (o : operation)
  : result SemanticError unit :=
  if (bool_decide (op o = Replace) || bool_decide (op o = Remove)
      || bool_decide (op o = Test))
     && negb (pathExists document (path o))
  then Err (PathNotFound (path o) (op o))
  else if bool_decide (op o = Add) && negb (parentExists document (path o))
  then Err (ParentMissing (path o))
  else
    match
      (if (bool_decide (op o = Move) || bool_decide (op o = Copy))
          && truthy (from o)
       then match from o with
            | Some f =>
                if pathExists document f then Ok tt
                else Err (SourceNotFound f (op o))
            | None => Ok tt
            end
       else Ok tt)
    with
    | Err e => Err e
    | Ok _ =>
        if bool_decide (op o = Replace) then check_replace_type document o
        else Ok tt
    end.

(** [validatePatchSemantics] (validate.ts, lines 77-108): every operation
    is checked against the same document. *)
Fixpoint validatePatchSemantics (document : json) (patch : ValidatedPatch)
  : result SemanticError unit :=
  match patch with
  | [] => Ok tt
  | o :: rest =>
      match check_operation document o with
      | Err e => Err e
      | Ok _ => validatePatchSemantics document rest
      end
  end.

End Semantics.
Export Semantics.

(** ** Applying operations to a tree *)

Module Tree.

(** Modelled from the spec: [applyPatch] of the fast-json-patch package is
    not part of the sources.  These are the operations of section 4.4,
    step 3, on a document tree; a pointer is resolved as in section 4.1.

    [add] at a leaf: a map gains or overwrites the key; a sequence takes
    the value at the append marker or at an index up to its length. *)
Definition add_leaf (v : json) (container : json) (k : string) : option json :=
  match container with
  | JObj m => Some (JObj (<[k:=v]> m))
  | JArr l =>
      if decide (k = "-") then Some (JArr (l ++ [v]))
      else match parse_index k with
           | Some i =>
               if decide (i ≤ List.length l)%nat
               then Some (JArr (take i l ++ v :: drop i l))
               else None
           | None => None
           end
  | _ => None
  end.

(** [remove] at a leaf deletes an existing member. *)
Definition remove_leaf (container : json) (k : string) : option json :=
  match container with
  | JObj m =>
      match m !! k with
      | Some _ => Some (JObj (delete k m))
      | None => None
      end
  | JArr l =>
      match parse_index k with
      | Some i =>
          match l !! i with
          | Some _ => Some (JArr (delete i l))
          | None => None
          end
      | None => None
      end
  | _ => None
  end.

(** [replace] at a leaf overwrites an existing member. *)
Definition replace_leaf (v : json) (container : json) (k : string)
  : option json :=
  match container with
  | JObj m =>
      match m !! k with
      | Some _ => Some (JObj (<[k:=v]> m))
      | None => None
      end
  | JArr l =>
      match parse_index k with
      | Some i =>
          match l !! i with
          | Some _ => Some (JArr (<[i:=v]> l))
          | None => None
          end
      | None => None
      end
  | _ => None
  end.

(** Rebuild [container] with the member under [k] changed by [f]. *)
Definition descend (container : json) (k : string) (f : json → option json)
  : option json :=
  match container with
  | JObj m =>
      match m !! k with
      | Some child =>
          match f child with
          | Some child' => Some (JObj (<[k:=child']> m))
          | None => None
          end
      | None => None
      end
  | JArr l =>
      match parse_index k with
      | Some i =>
          match l !! i with
          | Some child =>
              match f child with
              | Some child' => Some (JArr (<[i:=child']> l))
              | None => None
              end
          | None => None
          end
      | None => None
      end
  | _ => None
  end.

(** Walk to the parent of the last segment and run [leaf] there. *)
Fixpoint at_parent (leaf : json → string → option json)
    (document : json) (segments : list string) : option json :=
  match segments with
  | [] => None
  | k :: rest =>
      match rest with
      | [] => leaf document k
      | _ :: _ => descend document k (λ child, at_parent leaf child rest)
      end
  end.

(** At the root pointer [add] and [replace] yield the value itself and
    [remove] leaves [null]. *)
Definition add_value (document : json) (segments : list string) (v : json)
  : option json :=
  match segments with
  | [] => Some v
  | _ => at_parent (add_leaf v) document segments
  end.

Definition remove_value (document : json) (segments : list string)
  : option json :=
  match segments with
  | [] => Some JNull
  | _ => at_parent remove_leaf document segments
  end.

Definition replace_value (document : json) (segments : list string) (v : json)
  : option json :=
  match segments with
  | [] => Some v
  | _ => at_parent (replace_leaf v) document segments
  end.

End Tree.
Export Tree.

(** ** The applicator, over a store of mutable documents *)

Module Applicator.

(** A document the caller holds is an object in memory: a location of the
    store.  Two locations never share structure; mutation of one document
    is an update of its cell. *)
Definition loc : Type := nat.

Abbreviation store := (gmap loc json).

(** Computations that read and update the store and may throw. *)
Definition M (A : Type) : Type := store → result SemanticError A * store.

Definition ret {A} (a : A) : M A := λ s, (Ok a, s).

Definition bind {A B} (m : M A) (k : A → M B) : M B :=
  λ s, match m s with
       | (Ok a, s') => k a s'
       | (Err e, s') => (Err e, s')
       end.

Definition throw {A} (e : SemanticError) : M A := λ s, (Err e, s).

Definition read (l : loc) : M json := λ s, (Ok (s !!! l), s).

Definition write (l : loc) (v : json) : M unit := λ s, (Ok tt, <[l:=v]> s).

Definition alloc (v : json) : M loc :=
  λ s, let l := fresh (dom s) in (Ok l, <[l:=v]> s).

Definition lift {A} (r : result SemanticError A) : M A := λ s, (r, s).

Definition from_option {A} (e : SemanticError) (o : option A) : M A :=
  match o with
  | Some a => ret a
  | None => throw e
  end.

Notation "'let*' x ':=' m 'in' k" := (bind m (λ x, k))
  (at level 10, x name, m at level 100, k at level 200, only parsing).

(** Modelled from the spec: [deepClone] of the fast-json-patch package is
    not part of the sources.  Section 4.4, step 1: a fully independent copy,
    that is a fresh object with the same value. *)
Definition deepClone (document : loc) : M loc :=
  let* d := read document in alloc d.

(** Modelled from the spec: one step of [applyPatch] changes the document
    object in place, except at the root pointer, where the new document is
    another object and the old one is left as it was. *)
Definition update (document : loc) (segments : list string)
    (f : json → option json) (e : SemanticError) : M loc :=
  let* d := read document in
  let* d' := from_option e (f d) in
  match segments with
  | [] => alloc d'
  | _ => let* _ := write document d' in ret document
  end.

(** Modelled from the spec: the six operations of section 4.4, step 3.
    [move] is [remove] at [from] followed by [add] at [path] of the removed
    value, [copy] is [add] of the value at [from], [test] compares by deep
    equality. *)
Definition applyOperation (document : loc) (o : operation) : M loc :=
  let e := CannotApply (op o) (path o) in
  let* segments := from_option e (parsePointer (path o)) in
  match op o with
  | Add =>
      let* v := from_option e (value o) in
      update document segments (λ d, add_value d segments v) e
  | Remove =>
      update document segments (λ d, remove_value d segments) e
  | Replace =>
      let* v := from_option e (value o) in
      update document segments (λ d, replace_value d segments v) e
  | Move =>
      let* source := from_option e (from o ≫= parsePointer) in
      let* d := read document in
      let* v := from_option e (resolve d source) in
      let* document' := update document source (λ d, remove_value d source) e in
      update document' segments (λ d, add_value d segments v) e
  | Copy =>
      let* source := from_option e (from o ≫= parsePointer) in
      let* d := read document in
      let* v := from_option e (resolve d source) in
      update document segments (λ d, add_value d segments v) e
  | Test =>
      let* expected := from_option e (value o) in
      let* d := read document in
      let* actual := from_option e (resolve d segments) in
      if decide (actual = expected) then ret document
      else throw (TestFailed (path o))
  end.

(** Modelled from the spec: [applyPatch(document, patch, true, true)]
    applies the operations in order to the same object and stops at the
    first failure; what was changed before the failure stays changed. *)
Fixpoint applyPatch (document : loc) (patch : ValidatedPatch) : M loc :=
  match patch with
  | [] => ret document
  | o :: rest =>
      let* document' := applyOperation document o in
      applyPatch document' rest
  end.

(** [applyPatchWithValidation] (validate.ts, lines 110-115); the result is
    [result.newDocument]. *)
Definition applyPatchWithValidation (document : loc) (patch : ValidatedPatch)
  : M loc :=
  let* workingDocument := deepClone document in
  let* d := read workingDocument in
  let* _ := lift (validatePatchSemantics d patch) in
  applyPatch workingDocument patch.

(** [apply D P]: the caller holds [D] in an object of its own, calls
    [applyPatchWithValidation] and reads the document it gets back. *)
Definition apply (D : json) (P : ValidatedPatch) : result SemanticError json :=
  match applyPatchWithValidation 0 P {[0 := D]} with
  | (Ok l, s) => Ok (s !!! l)
  | (Err e, _) => Err e
  end.

End Applicator.
Export Applicator.

(** ** The applicator read on values

    What [applyPatch] computes, as a function of the value of the document
    it is given.  It is used to reason about the applicator and is proved
    to agree with it ([applyPatchWithValidation_spec] below). *)

Module Reference.

Definition opt_result {A} (e : SemanticError) (o : option A)
  : result SemanticError A :=
  match o with
  | Some a => Ok a
  | None => Err e
  end.

Definition applyOperation_value (d : json) (o : operation)
  : result SemanticError json :=
  let e := CannotApply (op o) (path o) in
  match parsePointer (path o) with
  | None => Err e
  | Some segments =>
      match op o with
      | Add =>
          match value o with
          | Some v => opt_result e (add_value d segments v)
          | None => Err e
          end
      | Remove => opt_result e (remove_value d segments)
      | Replace =>
          match value o with
          | Some v => opt_result e (replace_value d segments v)
          | None => Err e
          end
      | Move =>
          match from o ≫= parsePointer with
          | Some source =>
              match resolve d source with
              | Some v =>
                  match remove_value d source with
                  | Some d1 => opt_result e (add_value d1 segments v)
                  | None => Err e
                  end
              | None => Err e
              end
          | None => Err e
          end
      | Copy =>
          match from o ≫= parsePointer with
          | Some source =>
              match resolve d source with
              | Some v => opt_result e (add_value d segments v)
              | None => Err e
              end
          | None => Err e
          end
      | Test =>
          match value o with
          | Some expected =>
              match resolve d segments with
              | Some actual =>
                  if decide (actual = expected) then Ok d
                  else Err (TestFailed (path o))
              | None => Err e
              end
          | None => Err e
          end
      end
  end.

Fixpoint applyPatch_value (d : json) (patch : ValidatedPatch)
  : result SemanticError json :=
  match patch with
  | [] => Ok d
  | o :: rest =>
      match applyOperation_value d o with
      | Ok d' => applyPatch_value d' rest
      | Err e => Err e
      end
  end.

Definition apply_value (d : json) (patch : ValidatedPatch)
  : result SemanticError json :=
  match validatePatchSemantics d patch with
  | Ok _ => applyPatch_value d patch
  | Err e => Err e
  end.

(** What a caller observes of a call: the error, or the value of the
    document it gets back. *)
Definition outcome (r : result SemanticError loc * store)
  : result SemanticError json :=
  match r with
  | (Ok l, s) => Ok (s !!! l)
  | (Err e, _) => Err e
  end.

(** [frame c s s']: from [s] to [s'] no object is lost and every object
    other than [c] keeps its value. *)
Definition frame (c : loc) (s s' : store) : Prop :=
  dom s ⊆ dom s' ∧ ∀ l, l ≠ c → is_Some (s !! l) → s' !! l = s !! l.

(** What a run of the applicator from document [c] of value [d] in store
    [s] must satisfy, given the result [rv] computed on values. *)
Definition simulates (c : loc) (s : store)
    (run : result SemanticError loc * store)
    (rv : result SemanticError json) : Prop :=
  frame c s run.2 ∧
  match run.1 with
  | Ok c' =>
      ∃ d', rv = Ok d' ∧ run.2 !! c' = Some d' ∧ (c' = c ∨ c' ∉ dom s)
  | Err e => rv = Err e
  end.

End Reference.
Export Reference.

(** ** The words of the specification *)

Module Spec.

(** The pointer grammar the code enforces: a slash, then text in which
    every [~] is followed by [0] or [1]. *)
Definition pointer_grammar (p : string) : Prop :=
  ∃ rest, p = String "/" rest ∧ tilde_ok rest = true.

(** The issues [validatePatchStructure] reports, none when it accepts. *)
Definition structural_issues (candidate : json) : list issue :=
  match validatePatchStructure candidate with
  | Ok _ => []
  | Err issues => issues
  end.

(** Section 4.3, first three items: the existence precondition of an
    operation against a document, and the error of its violation. *)
Definition existence_violation (document : json) (o : operation)
  : option SemanticError :=
  match op o with
  | Replace | Remove | Test =>
      if pathExists document (path o) then None
      else Some (PathNotFound (path o) (op o))
  | Add =>
      if parentExists document (path o) then None
      else Some (ParentMissing (path o))
  | Move | Copy =>
      match from o with
      | Some f =>
          if pathExists document f then None
          else Some (SourceNotFound f (op o))
      | None => None
      end
  end.

(** Section 4.3, fourth item: the type-compatibility check of a
    [replace]. *)
Definition type_violation (document : json) (o : operation)
  : option SemanticError :=
  match op o, getValueByPointer document (path o), value o with
  | Replace, Some current, Some next =>
      if is_null current || is_null next then None
      else if decide (getType current = getType next) then None
      else Some (TypeMismatch (path o) (getType current) (getType next))
  | _, _, _ => None
  end.

(** The first violation of an operation, existence before type. *)
Definition violation (document : json) (o : operation)
  : option SemanticError :=
  match existence_violation document o with
  | Some e => Some e
  | None => type_violation document o
  end.

(** What [validatePatchStructure] guarantees of each operation it
    returns. *)
Definition well_formed (o : operation) : Prop :=
  jsonPointerPattern_test (path o) = true ∧ superRefine o = [].

(** A location where [add] creates a new member: its parent is a map
    without the last segment as a key, or a sequence whose length the last
    segment names. *)
Definition addable (document : json) (segments : list string) : Prop :=
  ∃ parent k, segments = parent ++ [k] ∧
    ((∃ m, resolve document parent = Some (JObj m) ∧ m !! k = None) ∨
     (∃ l, resolve document parent = Some (JArr l)
           ∧ parse_index k = Some (List.length l))).

(** Section 4.1: [exists(document, pointer)] is true exactly when
    [resolve] succeeds. *)
Definition exists_in (document : json) (pointer : string) : bool :=
  match parsePointer pointer ≫= resolve document with
  | Some _ => true
  | None => false
  end.

(** A segment text without a slash. *)
Fixpoint no_slash (s : string) : bool :=
  match s with
  | EmptyString => true
  | String c s' => negb (bool_decide (c = "/"%char)) && no_slash s'
  end.

End Spec.
Export Spec.

(** ** Sample data *)

Module Examples.

(** The document of the concrete scenarios of the specification:
    a cutoff of 200 under [data], [filter]. *)
Definition scenario_D : json :=
  JObj {[ "data" := JObj {[ "filter" := JObj {[ "cutoff" := num 200 ]} ]} ]}.

(** A candidate operation, as the JSON object a proposer sends. *)
Definition candidate (kind pointer : string) (source value : option json)
  : json :=
  JObj (<["op" := JStr kind]> (<["path" := JStr pointer]>
    (match source with
     | Some f => <["from" := f]>
     | None => id
     end
     (match value with
      | Some v => {[ "value" := v ]}
      | None => ∅
      end)))).

(** [sampleDoc] of the test suite (validate.test.ts, lines 4-10). *)
Definition sampleDoc : json :=
  JObj {[ "metadata" := JObj {[ "name" := JStr "Init";
                                "author" := JStr "Test" ]};
          "data" := JObj {[ "osc1" := JObj {[ "level" := num 0.5;
                                              "wave" := JStr "saw" ]};
                            "filter" := JObj {[ "cutoff" := num 200 ]} ]} ]}.

(** A document with a sequence of two numbers under [list]. *)
Definition list_D : json :=
  JObj {[ "list" := JArr [num 1; num 2] ]}.

End Examples.
Export Examples.

(** ** The rest of the repository: strings, file names, the proposer's
    answer, the request handler *)

Module Wire.

(** The JSON object an operation of a validated patch is: the keys [from]
    and [value] are there exactly when the fields are. *)
Definition encode_operation (o : operation) : json :=
  candidate (opkind_name (op o)) (path o) (JStr <$> from o) (value o).

(** The keys [operationSchema] declares. *)
Definition schema_keys : list string := ["op"; "path"; "from"; "value"].

End Wire.
Export Wire.

Module JsString.

(** [s.indexOf(c)] for a one-character [c]; [None] is [-1]. *)
Fixpoint indexOf (c : ascii) (s : string) : option nat :=
  match s with
  | EmptyString => None
  | String a s' => if decide (a = c) then Some 0 else S <$> indexOf c s'
  end.

(** [s.lastIndexOf(c)] for a one-character [c]; [None] is [-1]. *)
Fixpoint lastIndexOf (c : ascii) (s : string) : option nat :=
  match s with
  | EmptyString => None
  | String a s' =>
      match lastIndexOf c s' with
      | Some i => Some (S i)
      | None => if decide (a = c) then Some 0 else None
      end
  end.

(** [s.slice(start, stop)] for indices within the string. *)
Definition slice (s : string) (start stop : nat) : string :=
  substring start (stop - start) s.

Fixpoint map_string (f : ascii → ascii) (s : string) : string :=
  match s with
  | EmptyString => EmptyString
  | String c s' => String (f c) (map_string f s')
  end.

Definition in_range (lo hi : nat) (c : ascii) : bool :=
  ((lo <=? nat_of_ascii c) && (nat_of_ascii c <=? hi))%nat.

(** [toLowerCase] on the characters of one byte: the letters A to Z and
    the capital letters of Latin-1 move up by 32. *)
Definition lower_char (c : ascii) : ascii :=
  if in_range 65 90 c
     || (in_range 192 222 c && negb (bool_decide (nat_of_ascii c = 215)))
  then ascii_of_nat (nat_of_ascii c + 32)
  else c.

Definition toLowerCase (s : string) : string := map_string lower_char s.

(** [s.endsWith(suffix)] *)
Definition endsWith (s suffix : string) : bool :=
  bool_decide
    (substring (String.length s - String.length suffix)
       (String.length suffix) s = suffix)
  && (String.length suffix <=? String.length s)%nat.

(** Every character of [s] satisfies [P]. *)
Fixpoint all_chars (P : ascii → bool) (s : string) : bool :=
  match s with
  | EmptyString => true
  | String c s' => P c && all_chars P s'
  end.

End JsString.
Export JsString.

Module FileNames.

(** The class of [/[^a-z0-9-_]/gi] (index.ts, [/api/pack]): what the class
    keeps, letters of either case, digits, [-] and [_]. *)
Definition kept (c : ascii) : bool :=
  in_range 97 122 c || in_range 65 90 c || in_range 48 57 c
  || bool_decide (c = "-"%char) || bool_decide (c = "_"%char).

(** [filename.replace(/[^a-z0-9-_]/gi, '_')] *)
Definition replace_unsafe (filename : string) : string :=
  map_string (λ c, if kept c then c else "_"%char) filename.

(** [safeName] of [/api/pack]:
    [filename?.replace(...) || 'edited-preset']; [None] is [undefined]. *)
Definition safeName (filename : option string) : string :=
  match filename with
  | Some f =>
      let replaced := replace_unsafe f in
      if decide (replaced = "") then "edited-preset" else replaced
  | None => "edited-preset"
  end.

(** The double quote. *)
Definition quote : ascii := ascii_of_nat 34.

(** The [Content-Disposition] header of [/api/pack]: the safe name and the
    extension between double quotes. *)
Definition contentDisposition (filename : option string) : string :=
  ("attachment; filename=" ++ String quote (safeName filename)
   ++ ".SerumPreset" ++ String quote "")%string.

(** The [fileFilter] of the upload (index.ts): the name is accepted when
    its lower case ends with [.serumpreset]. *)
Definition fileFilter (originalname : string) : bool :=
  endsWith (toLowerCase originalname) ".serumpreset".

(** The pattern of [handleDownload] (App.tsx), anchored at the end: a dot,
    then one or more characters other than [/] and a dot. *)
Definition extension : regex :=
  Cat (Chr ".")
      (Cat (NotOf ["/"; "."]%char) (Star (NotOf ["/"; "."]%char))).

(** [s.replace(r, '')] for a pattern anchored at the end of the text: the
    first position from which the rest of the text matches is where the
    text is cut. *)
Fixpoint remove_at_end (r : regex) (s : string) : string :=
  if matches r s then EmptyString
  else match s with
       | EmptyString => EmptyString
       | String c s' => String c (remove_at_end r s')
       end.

(** [link.download] of [handleDownload] (App.tsx); [None] is [null]. *)
Definition downloadName (filename : option string) : string :=
  (remove_at_end extension (default "edited-preset" filename)
   ++ ".SerumPreset")%string.

End FileNames.
Export FileNames.

Module Llm.

Inductive ParseError : Type :=
  | NoJsonArray        (* 'LLM response did not contain a JSON array.' *)
  | NotAnArray         (* 'Parsed patch was not an array.' *)
  | SyntaxError.       (* thrown by JSON.parse *)

Section WithParser.

(** [JSON.parse]; [None] is the [SyntaxError] it throws. *)
Variable JSON_parse : string → option json.

(** [parsePatchResponse] (llm.ts); [None] is [null], and the patch returned
    is the array as parsed, not yet validated. *)
Definition parsePatchResponse (content : option string)
  : result ParseError json :=
  match content with
  | None => Ok (JArr [])
  | Some text =>
      if decide (text = "") then Ok (JArr [])
      else
        match indexOf "[" text, lastIndexOf "]" text with
        | Some start, Some stop =>
            if (stop <? start)%nat then Err NoJsonArray
            else
              let jsonText := slice text start (stop + 1) in
              match JSON_parse jsonText with
              | Some (JArr items) => Ok (JArr items)
              | Some _ => Err NotAnArray
              | None => Err SyntaxError
              end
        | _, _ => Err NoJsonArray
        end
  end.

End WithParser.

End Llm.
Export Llm.

Module Server.

(** What the [catch] of [/api/modify] answers with status 400. *)
Inductive ModifyError : Type :=
  | Structural (issues : list issue)
  | Semantic (e : SemanticError).

(** The [try] block of [/api/modify] (index.ts), given the request's
    document and the patch the proposer returned: the validated patch and
    the patched document. *)
Definition modify (document : loc) (patch : json)
  : store → result ModifyError (ValidatedPatch * loc) * store :=
  λ s,
    match validatePatchStructure patch with
    | Err issues => (Err (Structural issues), s)
    | Ok validatedPatch =>
        match validatePatchSemantics (s !!! document) validatedPatch with
        | Err e => (Err (Semantic e), s)
        | Ok _ =>
            match applyPatchWithValidation document validatedPatch s with
            | (Ok patchedJson, s') => (Ok (validatedPatch, patchedJson), s')
            | (Err e, s') => (Err (Semantic e), s')
            end
        end
    end.

(** The same without the handler's own call of
    [validatePatchSemantics]. *)
Definition modify_unchecked (document : loc) (patch : json)
  : store → result ModifyError (ValidatedPatch * loc) * store :=
  λ s,
    match validatePatchStructure patch with
    | Err issues => (Err (Structural issues), s)
    | Ok validatedPatch =>
        match applyPatchWithValidation document validatedPatch s with
        | (Ok patchedJson, s') => (Ok (validatedPatch, patchedJson), s')
        | (Err e, s') => (Err (Semantic e), s')
        end
    end.

(** What the handler sends: [res.json] writes the validated patch and the
    value of the patched document, or the error with status 400. *)
Definition response
    (r : result ModifyError (ValidatedPatch * loc) * store)
  : result ModifyError (ValidatedPatch * json) :=
  match r with
  | (Ok (validatedPatch, patchedJson), s) =>
      Ok (validatedPatch, s !!! patchedJson)
  | (Err e, _) => Err e
  end.

End Server.
Export Server.

(** * Properties *)

(** ** The test suite of the repository

    The cases of validate.test.ts, run on the embedding. *)

Section TestSuite.

(** accepts a valid replace operation *)
Example test_accepts_valid_replace :
  validatePatchStructure
    (JArr [candidate "replace" "/data/filter/cutoff" None (Some (num 800))])
  = Ok [Operation Replace "/data/filter/cutoff" None (Some (num 800))].
Proof. vm_compute. reflexivity. Qed.

(** rejects invalid pointer syntax *)
Example test_rejects_invalid_pointer :
  validatePatchStructure
    (JArr [candidate "replace" "data/filter/cutoff" None (Some (num 800))])
  = Err [AtIndex 0 MalformedPointer].
Proof. vm_compute. reflexivity. Qed.

(** throws when replacing a non-existent path: the call throws, but the
    error is not the one the test expects.  The container [filter] exists,
    so the lookup answers [undefined] without throwing, [pathExists] is
    true, and the type check compares with the kind of [undefined]; the
    message does not say "does not exist". *)
Example test_throws_on_missing_path :
  pathExists sampleDoc "/data/filter/resonance" = true
  ∧ validatePatchSemantics sampleDoc
      [Operation Replace "/data/filter/resonance" None (Some (num 0.3))]
    = Err (TypeMismatch "/data/filter/resonance" "undefined" "number")
  ∧ error_message (TypeMismatch "/data/filter/resonance" "undefined" "number")
    = Some "Type mismatch at /data/filter/resonance: expected undefined, received number".
Proof. vm_compute. split_and!; reflexivity. Qed.

(** throws on type mismatch *)
Example test_throws_on_type_mismatch :
  validatePatchSemantics sampleDoc
    [Operation Replace "/data/filter/cutoff" None (Some (JStr "fast"))]
  = Err (TypeMismatch "/data/filter/cutoff" "number" "string")
  ∧ error_message (TypeMismatch "/data/filter/cutoff" "number" "string")
    = Some "Type mismatch at /data/filter/cutoff: expected number, received string".
Proof. vm_compute. split; reflexivity. Qed.

(** allows safe replacements *)
Example test_allows_safe_replacements :
  validatePatchSemantics sampleDoc
    [Operation Replace "/data/filter/cutoff" None (Some (num 512))]
  = Ok tt.
Proof. vm_compute. reflexivity. Qed.

(** applies a valid patch and returns a new document *)
Example test_applies_a_valid_patch :
  let P := [Operation Replace "/data/osc1/level" None (Some (num 0.8))] in
  let run := applyPatchWithValidation 0 P {[0 := sampleDoc]} in
  match run.1 with
  | Ok patched =>
      getValueByPointer (run.2 !!! patched) "/data/osc1/level"
      = Some (Defined (num 0.8))
      ∧ getValueByPointer (run.2 !!! 0) "/data/osc1/level"
        = Some (Defined (num 0.5))
  | Err _ => False
  end.
Proof. vm_compute. split; reflexivity. Qed.

End TestSuite.

(** ** The derivative matcher agrees with the declarative semantics *)

Section RegexFacts.

Lemma append_nil_inv (s1 s2 : string) :
  (s1 ++ s2)%string = "" → s1 = "" ∧ s2 = "".
Proof. destruct s1; simpl; [tauto | discriminate]. Qed.

Lemma append_cons_inv (s1 s2 : string) a s :
  (s1 ++ s2)%string = String a s →
  (s1 = "" ∧ s2 = String a s) ∨
  (∃ s1', s1 = String a s1' ∧ s = (s1' ++ s2)%string).
Proof.
  destruct s1 as [|b s1']; simpl; intros H.
  - left; auto.
  - right. injection H as -> <-. eauto.
Qed.

Lemma append_cons a (s t : string) :
  (String a s ++ t)%string = String a (s ++ t)%string.
Proof. reflexivity. Qed.

Lemma append_empty_l (t : string) : ("" ++ t)%string = t.
Proof. reflexivity. Qed.

Lemma append_assoc (s t u : string) :
  (s ++ (t ++ u))%string = ((s ++ t) ++ u)%string.
Proof.
  induction s as [|a s IH]; [reflexivity|].
  rewrite !append_cons, IH. reflexivity.
Qed.

Lemma nullable_sound r : nullable r = true → re_match r "".
Proof.
  induction r; simpl; intros H; try discriminate.
  - constructor.
  - apply andb_true_iff in H as [H1 H2].
    change "" with ("" ++ "")%string. constructor; auto.
  - apply orb_true_iff in H as [H|H]; [apply MAltL | apply MAltR]; auto.
  - constructor.
Qed.

Lemma nullable_complete r s : re_match r s → s = "" → nullable r = true.
Proof.
  induction 1; simpl; intros E; try discriminate; auto.
  - apply append_nil_inv in E as [-> ->]. rewrite IHre_match1, IHre_match2; auto.
  - rewrite IHre_match; auto.
  - rewrite IHre_match; auto using orb_true_r.
Qed.

Lemma cat_inv r1 r2 s :
  re_match (Cat r1 r2) s →
  ∃ s1 s2, s = (s1 ++ s2)%string ∧ re_match r1 s1 ∧ re_match r2 s2.
Proof. inversion 1; subst; eauto. Qed.

Lemma star_cons_inv r a s :
  re_match (Star r) (String a s) →
  ∃ s1 s2, s = (s1 ++ s2)%string ∧ re_match r (String a s1)
           ∧ re_match (Star r) s2.
Proof.
  intros H. remember (Star r) as r' eqn:Er. remember (String a s) as t eqn:Et.
  induction H; try discriminate.
  injection Er as ->.
  apply append_cons_inv in Et as [[-> ->] | (s1' & -> & ->)].
  - auto.
  - eauto.
Qed.

Lemma deriv_sound a r : ∀ s, re_match (deriv a r) s → re_match r (String a s).
Proof.
  induction r; simpl; intros s H.
  - inversion H.
  - inversion H.
  - destruct (decide (a = c)) as [->|]; inversion H; subst. constructor.
  - destruct (decide (a ∈ cs)); inversion H; subst. constructor; auto.
  - assert (Hcat : ∀ t, re_match (Cat (deriv a r1) r2) t →
                        re_match (Cat r1 r2) (String a t)).
    { intros t Ht. inversion Ht; subst.
      change (String a (s1 ++ s2)%string) with (String a s1 ++ s2)%string.
      constructor; auto. }
    destruct (nullable r1) eqn:N.
    + inversion H; subst; auto.
      change (String a s) with ("" ++ String a s)%string.
      constructor; auto using nullable_sound.
    + auto.
  - inversion H; subst; [apply MAltL | apply MAltR]; auto.
  - inversion H; subst.
    change (String a (s1 ++ s2)%string) with (String a s1 ++ s2)%string.
    constructor; auto.
Qed.

Lemma deriv_complete a r : ∀ s, re_match r (String a s) → re_match (deriv a r) s.
Proof.
  induction r; simpl; intros s H.
  - inversion H.
  - inversion H.
  - inversion H; subst. rewrite decide_True by done. constructor.
  - inversion H; subst. rewrite decide_False by done. constructor.
  - apply cat_inv in H as (s1 & s2 & E & H1 & H2). symmetry in E.
    apply append_cons_inv in E as [[-> ->] | (s1' & -> & ->)].
    + rewrite (nullable_complete _ _ H1 eq_refl). apply MAltR; auto.
    + destruct (nullable r1); [apply MAltL|]; constructor; auto.
  - inversion H; subst; [apply MAltL | apply MAltR]; auto.
  - apply star_cons_inv in H as (s1 & s2 & -> & H1 & H2).
    constructor; auto.
Qed.

Lemma matches_spec r s : matches r s = true ↔ re_match r s.
Proof.
  revert r. induction s as [|a s IH]; intros r; simpl.
  - split; [apply nullable_sound | intros H; eapply nullable_complete; eauto].
  - rewrite IH. split; [apply deriv_sound | apply deriv_complete].
Qed.

End RegexFacts.

(** ** The language of [jsonPointerPattern] *)

Section PointerGrammar.

Lemma string_ind2 (P : string → Prop) :
  P "" → (∀ c, P (String c "")) →
  (∀ c d s, P s → P (String d s) → P (String c (String d s))) →
  ∀ s, P s.
Proof.
  intros H0 H1 H2 s.
  enough (P s ∧ ∀ c, P (String c s)) by tauto.
  induction s as [|d s [IH1 IH2]]; split; auto.
Qed.

Lemma tilde_ok_app (s1 s2 : string) :
  tilde_ok s1 = true → tilde_ok s2 = true → tilde_ok (s1 ++ s2) = true.
Proof.
  intros H1 H2. revert H1.
  induction s1 as [|c|c d s IHs IHd] using string_ind2;
    rewrite ?append_cons, ?append_empty_l; simpl; auto.
  - destruct (decide (c = "~"%char)); [discriminate | auto].
  - destruct (decide (c = "~"%char)).
    + intros [Hd Hs]%andb_true_iff. rewrite Hd. simpl. auto.
    + intros H. exact (IHd H).
Qed.

Lemma token_tilde_ok s : re_match token s → tilde_ok s = true.
Proof.
  unfold token. intros H.
  inversion H as [| | | |? ? ? H1|? ? ? H1| |]; subst.
  - inversion H1 as [| |? c Hc| | | | |]; subst. simpl.
    destruct (decide (c = "~"%char)) as [->|]; [|done].
    exfalso. apply Hc. apply elem_of_cons. auto.
  - inversion H1 as [| | | |? ? ? H2|? ? ? H2| |]; subst;
      apply cat_inv in H2 as (s1 & s2 & -> & Ha & Hb);
      inversion Ha as [|c1 E1 E2| | | | | |];
      inversion Hb as [|c2 E3 E4| | | | | |]; subst; reflexivity.
Qed.

Lemma star_tilde_ok r s :
  (∀ t, re_match r t → tilde_ok t = true) →
  re_match (Star r) s → tilde_ok s = true.
Proof.
  intros Hr H. remember (Star r) as r' eqn:E.
  induction H; try discriminate; auto.
  injection E as ->. apply tilde_ok_app; auto.
Qed.

Lemma group_tilde_ok s :
  re_match (Cat (Chr "/") (Star token)) s → tilde_ok s = true.
Proof.
  intros (s1 & s2 & -> & H1 & H2)%cat_inv.
  inversion H1; subst. rewrite append_cons, append_empty_l. simpl.
  eapply star_tilde_ok; eauto using token_tilde_ok.
Qed.

Lemma segments_tilde_ok s :
  re_match (Cat (Star token) (Star (Cat (Chr "/") (Star token)))) s →
  tilde_ok s = true.
Proof.
  intros (s1 & s2 & -> & H1 & H2)%cat_inv.
  apply tilde_ok_app.
  - eapply star_tilde_ok; eauto using token_tilde_ok.
  - eapply star_tilde_ok; eauto using group_tilde_ok.
Qed.

Lemma token_plain c : c ≠ "~"%char → c ≠ "/"%char → re_match token (String c "").
Proof.
  intros H1 H2. apply MAltL. constructor.
  rewrite !elem_of_cons, elem_of_nil. tauto.
Qed.

Lemma token_escape d :
  d = "0"%char ∨ d = "1"%char → re_match token (String "~" (String d "")).
Proof.
  intros [-> | ->]; apply MAltR; [apply MAltL | apply MAltR];
    change (re_match (Cat (Chr "~") (Chr ?x)) _)
      with (re_match (Cat (Chr "~") (Chr x)) ("~" ++ String x "")%string);
    constructor; constructor.
Qed.

Lemma tilde_ok_segments s :
  tilde_ok s = true →
  re_match (Cat (Star token) (Star (Cat (Chr "/") (Star token)))) s.
Proof.
  set (G := Star (Cat (Chr "/") (Star token))).
  assert (Hstep : ∀ t u, re_match token t →
            re_match (Cat (Star token) G) u →
            re_match (Cat (Star token) G) (t ++ u)%string).
  { intros t u Ht (u1 & u2 & -> & Hu1 & Hu2)%cat_inv.
    rewrite append_assoc. constructor; auto. constructor; auto. }
  assert (Hslash : ∀ u, re_match (Cat (Star token) G) u →
            re_match (Cat (Star token) G) (String "/" u)).
  { intros u (u1 & u2 & -> & Hu1 & Hu2)%cat_inv.
    change (String "/" (u1 ++ u2)%string)
      with ("" ++ ((String "/" "" ++ u1) ++ u2))%string.
    constructor; [constructor|]. unfold G. constructor; auto.
    constructor; auto. constructor. }
  induction s as [|c|c d s IHs IHd] using string_ind2; simpl.
  - intros _. change "" with ("" ++ "")%string. constructor; constructor.
  - destruct (decide (c = "~"%char)); [discriminate|]. intros _.
    destruct (decide (c = "/"%char)) as [->|].
    + apply Hslash. change "" with ("" ++ "")%string. constructor; constructor.
    + change (String c "") with (String c "" ++ "")%string.
      apply Hstep; [apply token_plain; auto|].
      change "" with ("" ++ "")%string. constructor; constructor.
  - destruct (decide (c = "~"%char)) as [->|].
    + intros [Hd Hs]%andb_true_iff.
      change (String "~" (String d s))
        with (String "~" (String d "") ++ s)%string.
      apply Hstep; auto. apply token_escape.
      apply orb_true_iff in Hd as [Hd|Hd]; apply bool_decide_eq_true in Hd; auto.
    + intros H. destruct (decide (c = "/"%char)) as [->|].
      * apply Hslash. auto.
      * change (String c (String d s)) with (String c "" ++ String d s)%string.
        apply Hstep; auto using token_plain.
Qed.

(** The pattern accepts exactly a slash followed by text in which every
    [~] is followed by [0] or [1]. *)
Lemma jsonPointerPattern_test_spec s :
  jsonPointerPattern_test s = true ↔
  ∃ rest, s = String "/" rest ∧ tilde_ok rest = true.
Proof.
  unfold jsonPointerPattern_test. rewrite matches_spec. split.
  - intros (s1 & s2 & -> & H1 & H2)%cat_inv. inversion H1; subst.
    eexists; split; [reflexivity|]. apply segments_tilde_ok; auto.
  - intros (rest & -> & H).
    change (String "/" rest) with (String "/" "" ++ rest)%string.
    constructor; [constructor|]. apply tilde_ok_segments; auto.
Qed.

End PointerGrammar.

(** ** Structural validation *)

Section StructureFacts.

Lemma parse_elements_issues n cs x :
  x ∈ (parse_elements n cs).2 ↔
  ∃ i c e, x = AtIndex (n + i) e ∧ cs !! i = Some c
           ∧ e ∈ (operationSchema c).2.
Proof.
  revert n. induction cs as [|c cs IH]; intros n; simpl.
  - rewrite elem_of_nil. split; [tauto|]. intros (i & c & e & _ & H & _).
    discriminate.
  - destruct (operationSchema c) as [o es] eqn:Ec.
    specialize (IH (S n)).
    destruct (parse_elements (S n) cs) as [os more]. simpl in *.
    rewrite elem_of_app, IH, list_elem_of_fmap. split.
    + intros [(e & -> & He) | (i & c' & e & -> & Hi & He)].
      * exists 0, c, e. rewrite Ec, Nat.add_0_r. auto.
      * exists (S i), c', e. rewrite Nat.add_succ_r. auto.
    + intros ([|i] & c' & e & -> & Hi & He); simpl in Hi.
      * left. injection Hi as <-. rewrite Ec in He. rewrite Nat.add_0_r. eauto.
      * right. exists i, c', e. rewrite Nat.add_succ_r. auto.
Qed.

Lemma parse_elements_ops n cs :
  (parse_elements n cs).1 = map (λ c, (operationSchema c).1) cs.
Proof.
  revert n. induction cs as [|c cs IH]; intros n; simpl; [done|].
  destruct (operationSchema c) as [o es].
  specialize (IH (S n)). destruct (parse_elements (S n) cs). simpl in *.
  by rewrite IH.
Qed.

Lemma validatePatchStructure_array cs :
  validatePatchStructure (JArr cs) =
  match (parse_elements 0 cs).2 with
  | [] => Ok (omap id (map (λ c, (operationSchema c).1) cs))
  | issues => Err issues
  end.
Proof.
  unfold validatePatchStructure, patchSchema.
  rewrite <- (parse_elements_ops 0).
  destruct (parse_elements 0 cs) as [os [|x issues]]; reflexivity.
Qed.

(** An issue of an element is an issue of the patch, at its index. *)
Lemma structural_issue_at cs i c e :
  cs !! i = Some c → e ∈ (operationSchema c).2 →
  ∃ issues, validatePatchStructure (JArr cs) = Err issues
            ∧ AtIndex i e ∈ issues.
Proof.
  intros Hi He. rewrite validatePatchStructure_array.
  assert (Hin : AtIndex i e ∈ (parse_elements 0 cs).2).
  { apply parse_elements_issues. exists i, c, e. auto. }
  destruct (parse_elements 0 cs).2 as [|x issues] eqn:E.
  - apply elem_of_nil in Hin as [].
  - eauto.
Qed.

Lemma structural_issues_elem cs i e :
  AtIndex i e ∈ structural_issues (JArr cs) ↔
  ∃ c, cs !! i = Some c ∧ e ∈ (operationSchema c).2.
Proof.
  unfold structural_issues. rewrite validatePatchStructure_array.
  pose proof (parse_elements_issues 0 cs (AtIndex i e)) as H.
  destruct (parse_elements 0 cs).2 as [|x issues] eqn:E.
  - rewrite elem_of_nil in *. split; [tauto|].
    intros (c & Hc & He). apply H. exists i, c, e. auto.
  - rewrite H. split.
    + intros (j & c & e' & [= -> ->] & Hc & He). eauto.
    + intros (c & Hc & He). exists i, c, e. auto.
Qed.

(** A patch is accepted exactly when no element has an issue. *)
Lemma validatePatchStructure_ok_iff cs :
  is_ok (validatePatchStructure (JArr cs)) = true ↔
  ∀ c, c ∈ cs → (operationSchema c).2 = [].
Proof.
  rewrite validatePatchStructure_array.
  pose proof (parse_elements_issues 0 cs) as H.
  destruct (parse_elements 0 cs).2 as [|x issues] eqn:E; simpl; split.
  - intros _ c [i Hi]%list_elem_of_lookup.
    destruct (operationSchema c).2 as [|e es] eqn:Ec; [done|].
    exfalso. eapply elem_of_nil, H. exists i, c, e.
    rewrite Ec. split_and!; auto. apply elem_of_cons; auto.
  - done.
  - done.
  - intros Hall. exfalso.
    destruct (proj1 (H x)) as (i & c & e & _ & Hi & He);
      [apply elem_of_cons; auto|].
    rewrite (Hall c) in He; [by apply elem_of_nil in He|].
    eapply list_elem_of_lookup_2; eauto.
Qed.

Lemma parse_op_issues f e :
  e ∈ (parse_op f).2 → e = UnknownOperationKind ∨ e = InvalidType.
Proof.
  unfold parse_op. destruct f as [[]|]; simpl;
    try destruct (parse_opkind _); simpl;
    rewrite ?elem_of_cons, ?elem_of_nil; tauto.
Qed.

Lemma parse_from_issues f e : e ∈ (parse_from f).2 → e = InvalidType.
Proof.
  unfold parse_from. destruct f as [[]|]; simpl;
    rewrite ?elem_of_cons, ?elem_of_nil; tauto.
Qed.

Lemma superRefine_issues o e :
  e ∈ superRefine o → e = MissingRequiredValue ∨ e = MissingOrMalformedFrom.
Proof.
  unfold superRefine. rewrite !elem_of_app.
  intros [H|[H|H]]; revert H.
  - destruct (_ || _); [destruct (value o)|];
      rewrite ?elem_of_cons, ?elem_of_nil; tauto.
  - destruct (_ && _); rewrite ?elem_of_cons, ?elem_of_nil; tauto.
  - destruct (_ || _); [destruct (from o); [destruct (_ && _)|]|];
      rewrite ?elem_of_cons, ?elem_of_nil; tauto.
Qed.

(** The issues of an object: those of its fields and, when no field
    aborted, those of the refinement. *)
Lemma operationSchema_issues m e :
  e ∈ (operationSchema (JObj m)).2 ↔
  e ∈ (parse_op (m !! "op")).2 ∨ e ∈ (parse_path (m !! "path")).2
  ∨ e ∈ (parse_from (m !! "from")).2
  ∨ ∃ k p f, (parse_op (m !! "op")).1 = Some k
      ∧ (parse_path (m !! "path")).1 = Some p
      ∧ (parse_from (m !! "from")).1 = Some f
      ∧ e ∈ superRefine (Operation k p f (m !! "value")).
Proof.
  unfold operationSchema, parse_value.
  destruct (parse_op (m !! "op")) as [[k|] i1];
    destruct (parse_path (m !! "path")) as [[p|] i2];
    destruct (parse_from (m !! "from")) as [[f|] i3]; simpl;
    rewrite ?elem_of_app, ?elem_of_nil.
  1: { split.
       - intros [[H|[H|[H|[]]]]|H]; eauto 10.
       - intros [H|[H|[H|(k0 & p0 & f0 & [= <-] & [= <-] & [= <-] & H)]]];
           tauto. }
  all: split;
    [ intros [H|[H|[H|[]]]]; auto
    | intros [H|[H|[H|(? & ? & ? & ? & ? & ? & ?)]]]; auto; discriminate ].
Qed.

(** The value an accepted object parses to. *)
Lemma operationSchema_value m k p f :
  (parse_op (m !! "op")).1 = Some k →
  (parse_path (m !! "path")).1 = Some p →
  (parse_from (m !! "from")).1 = Some f →
  (operationSchema (JObj m)).1 = Some (Operation k p f (m !! "value")).
Proof.
  unfold operationSchema, parse_value.
  destruct (parse_op (m !! "op")) as [[k'|] i1];
    destruct (parse_path (m !! "path")) as [[p'|] i2];
    destruct (parse_from (m !! "from")) as [[f'|] i3]; simpl;
    intros; simplify_eq; reflexivity.
Qed.

(** The only source of [MalformedPointer] is the pattern of [path]. *)
Lemma operationSchema_malformed m p :
  m !! "path" = Some (JStr p) →
  MalformedPointer ∈ (operationSchema (JObj m)).2 ↔
  jsonPointerPattern_test p = false.
Proof.
  intros Hp. rewrite operationSchema_issues, Hp. simpl. split.
  - intros [H|[H|[H|(k & q & f & _ & _ & _ & H)]]].
    + apply parse_op_issues in H as [|]; discriminate.
    + destruct (jsonPointerPattern_test p); [|done].
      by apply elem_of_nil in H.
    + apply parse_from_issues in H. discriminate.
    + apply superRefine_issues in H as [|]; discriminate.
  - intros ->. right; left. apply elem_of_cons; auto.
Qed.

(** An object without issues parses to a well-formed operation. *)
Lemma operationSchema_well_formed c o :
  operationSchema c = (Some o, []) → well_formed o.
Proof.
  unfold operationSchema, parse_value.
  destruct c as [| | | | |m]; try discriminate.
  destruct (parse_op (m !! "op")) as [[k|] i1];
    destruct (parse_path (m !! "path")) as [[p|] i2] eqn:Ep;
    destruct (parse_from (m !! "from")) as [[f|] i3];
    try discriminate.
  intros [= <- H].
  apply app_eq_nil in H as [H Hrefine].
  apply app_eq_nil in H as [_ H]. apply app_eq_nil in H as [-> _].
  split; [|exact Hrefine]. simpl.
  unfold parse_path in Ep. destruct (m !! "path") as [[]|]; try discriminate.
  injection Ep as -> Ep. by destruct (jsonPointerPattern_test p).
Qed.

(** Every operation of an accepted patch is well-formed. *)
Lemma validatePatchStructure_well_formed candidate P :
  validatePatchStructure candidate = Ok P → Forall well_formed P.
Proof.
  destruct candidate as [| | | |cs|]; try discriminate.
  intros H.
  assert (Hok : is_ok (validatePatchStructure (JArr cs)) = true)
    by (by rewrite H).
  rewrite validatePatchStructure_ok_iff in Hok.
  rewrite validatePatchStructure_array in H.
  destruct (parse_elements 0 cs).2; [|discriminate].
  injection H as <-. apply Forall_forall. intros o Ho.
  apply list_elem_of_omap in Ho as (x & Hx & Hid).
  apply list_elem_of_fmap in Hx as (c & -> & Hc).
  apply (operationSchema_well_formed c).
  specialize (Hok c Hc). simpl in Hid.
  destruct (operationSchema c) as [o' es]. simpl in *. by subst.
Qed.

End StructureFacts.

Section StructureClaims.

Ltac lookup_fields :=
  repeat (rewrite lookup_insert_eq
          || (rewrite lookup_insert_ne by done)
          || rewrite lookup_singleton_eq
          || (rewrite lookup_singleton_ne by done)
          || rewrite lookup_empty).

Lemma pointer_grammar_test p :
  pointer_grammar p ↔ jsonPointerPattern_test p = true.
Proof. symmetry. apply jsonPointerPattern_test_spec. Qed.

Lemma not_pointer_grammar_test p :
  ¬ pointer_grammar p ↔ jsonPointerPattern_test p = false.
Proof. rewrite pointer_grammar_test. apply not_true_iff_false. Qed.

Lemma parse_opkind_name k : parse_opkind (opkind_name k) = Some k.
Proof. destruct k; reflexivity. Qed.

(** A patch of one element. *)
Lemma validatePatchStructure_single c :
  validatePatchStructure (JArr [c]) =
  match operationSchema c with
  | (o, []) => Ok (omap id [o])
  | (_, e :: es) => Err (map (AtIndex 0) (e :: es))
  end.
Proof.
  unfold validatePatchStructure, patchSchema. simpl.
  destruct (operationSchema c) as [o [|e es]]; simpl; [done|].
  by rewrite app_nil_r.
Qed.

(** C4, the counterexample: a [remove] whose path is the empty string, the
    root pointer, is rejected as a malformed pointer. *)
Lemma C4_empty_path_rejected :
  validatePatchStructure
    (JArr [JObj {[ "op" := JStr "remove"; "path" := JStr "" ]}])
  = Err [AtIndex 0 MalformedPointer].
Proof. vm_compute. reflexivity. Qed.

(** C4, as amended: the path of an operation passes structural validation
    exactly when it is a slash-prefixed sequence of segments in which every
    [~] is followed by [0] or [1]; any other path, the empty string
    included, is rejected with [MalformedPointer] at the index of the
    operation.  [validatePatchStructure] takes the candidate patch alone, so
    no document is read. *)
Theorem C4_pointer_grammar (cs : list json) (i : nat)
    (m : gmap string json) (p : string) :
  cs !! i = Some (JObj m) →
  m !! "path" = Some (JStr p) →
  (pointer_grammar p →
     AtIndex i MalformedPointer ∉ structural_issues (JArr cs))
  ∧ (¬ pointer_grammar p →
     ∃ issues, validatePatchStructure (JArr cs) = Err issues
               ∧ AtIndex i MalformedPointer ∈ issues)
  ∧ (pointer_grammar p ↔
     validatePatchStructure
       (JArr [JObj {[ "op" := JStr "remove"; "path" := JStr p ]}])
     = Ok [Operation Remove p None None]).
Proof.
  intros Hi Hp. split_and!.
  - intros Hg. rewrite structural_issues_elem.
    intros (c & Hc & He). rewrite Hi in Hc. injection Hc as <-.
    apply (operationSchema_malformed m p Hp) in He.
    apply pointer_grammar_test in Hg. congruence.
  - intros Hg%not_pointer_grammar_test.
    eapply structural_issue_at; [exact Hi|].
    by apply (operationSchema_malformed m p Hp).
  - rewrite validatePatchStructure_single, pointer_grammar_test.
    unfold operationSchema, parse_op, parse_path, parse_from, parse_value.
    lookup_fields. simpl.
    destruct (jsonPointerPattern_test p); simpl; split; congruence.
Qed.

Lemma C4_pointer_grammar_witness :
  let m : gmap string json :=
    {[ "op" := JStr "replace"; "path" := JStr "data/filter/cutoff";
       "value" := num 800 ]} in
  ∃ issues, validatePatchStructure (JArr [JObj m]) = Err issues
            ∧ AtIndex 0 MalformedPointer ∈ issues.
Proof.
  intros m.
  refine (proj1 (proj2
    (C4_pointer_grammar [JObj m] 0 m "data/filter/cutoff" _ _)) _).
  - reflexivity.
  - vm_compute. reflexivity.
  - intros (rest & E & _). discriminate.
Defined.




(** C9: for [add], [remove], [replace] and [test] the text of a [from]
    string is never looked at: the issues of the object are those of the
    object without the key, so an [add] with a [from] lacking its leading
    slash is accepted; for [move] and [copy] a non-empty [from] outside the
    pattern is an issue. *)
Theorem C9_from_unchecked (m : gmap string json) (s : string) (k : opkind)
    (f : string) :
  m !! "op" = Some (JStr s) →
  parse_opkind s = Some k →
  (k ≠ Move → k ≠ Copy →
     (operationSchema (JObj (<["from" := JStr f]> m))).2
     = (operationSchema (JObj (delete "from" m))).2)
  ∧ (k = Move ∨ k = Copy → f ≠ "" → jsonPointerPattern_test f = false →
     ∀ p, m !! "path" = Some (JStr p) →
     MissingOrMalformedFrom
       ∈ (operationSchema (JObj (<["from" := JStr f]> m))).2)
  ∧ (∀ p v, pointer_grammar p →
       validatePatchStructure
         (JArr [JObj {[ "op" := JStr "add"; "path" := JStr p;
                        "from" := JStr f; "value" := v ]}])
       = Ok [Operation Add p (Some f) (Some v)]).
Proof.
  intros Hop Hk. split_and!.
  - intros HM HC.
    unfold operationSchema, parse_op, parse_path, parse_from, parse_value.
    rewrite lookup_insert_eq, !lookup_insert_ne, lookup_delete_eq,
      !lookup_delete_ne by done.
    rewrite Hop, Hk.
    destruct (m !! "path") as [[]|]; simpl; try reflexivity.
    unfold superRefine; simpl.
    destruct k; try congruence; simpl; reflexivity.
  - intros Hkind Hf Htest p Hp.
    apply operationSchema_issues. right; right; right.
    exists k, p, (Some f).
    unfold parse_op, parse_path, parse_from.
    rewrite lookup_insert_eq, !lookup_insert_ne by done.
    rewrite Hop, Hk, Hp. split_and!; try reflexivity.
    unfold superRefine, truthy. simpl.
    rewrite (bool_decide_eq_false_2 (f = "")) by done. rewrite Htest.
    rewrite !elem_of_app. right; right.
    destruct Hkind as [-> | ->]; simpl; apply elem_of_cons; auto.
  - intros p v Hg%pointer_grammar_test.
    rewrite validatePatchStructure_single.
    unfold operationSchema, parse_op, parse_path, parse_from, parse_value.
    lookup_fields. rewrite Hg. reflexivity.
Qed.

Lemma C9_from_unchecked_witness :
  let m : gmap string json :=
    {[ "op" := JStr "move"; "path" := JStr "/data/b" ]} in
  MissingOrMalformedFrom
    ∈ (operationSchema (JObj (<["from" := JStr "data/a"]> m))).2.
Proof.
  intros m.
  refine (proj1 (proj2
    (C9_from_unchecked m "move" Move "data/a" _ _)) _ _ _ "/data/b" _).
  - vm_compute. reflexivity.
  - reflexivity.
  - left. reflexivity.
  - discriminate.
  - reflexivity.
  - vm_compute. reflexivity.
Defined.

End StructureClaims.

(** ** Semantic validation *)

Section SemanticsFacts.

(** The document the patch is validated against. *)
Context (D : json).

#[local] Opaque getType is_null.

(** One operation is checked as the specification words it: existence
    first, then the type of a [replace]. *)
Lemma check_operation_spec o :
  check_operation D o =
  match violation D o with
  | Some e => Err e
  | None => Ok tt
  end.
Proof.
  unfold check_operation, violation, existence_violation, type_violation,
    check_replace_type, pathExists, truthy.
  destruct o as [k p f v]; simpl.
  destruct k; simpl.
  - destruct (parentExists D p); reflexivity.
  - destruct (getValueByPointer D p); reflexivity.
  - destruct (getValueByPointer D p) as [cur|]; simpl; [|reflexivity].
    destruct v as [next|]; [|reflexivity].
    destruct (is_null cur), (is_null next); simpl; try reflexivity.
    destruct (decide (getType cur = getType next)) as [E|E].
    + rewrite bool_decide_eq_true_2 by done. reflexivity.
    + rewrite bool_decide_eq_false_2 by done. reflexivity.
  - destruct f as [f|]; simpl; [|reflexivity].
    destruct (decide (f = "")) as [->|Hf].
    + reflexivity.
    + rewrite bool_decide_eq_false_2 by done. simpl.
      destruct (getValueByPointer D f); reflexivity.
  - destruct f as [f|]; simpl; [|reflexivity].
    destruct (decide (f = "")) as [->|Hf].
    + reflexivity.
    + rewrite bool_decide_eq_false_2 by done. simpl.
      destruct (getValueByPointer D f); reflexivity.
  - destruct (getValueByPointer D p); reflexivity.
Qed.

#[local] Transparent getType is_null.

Lemma validatePatchSemantics_ok P :
  validatePatchSemantics D P = Ok tt ↔ ∀ o, o ∈ P → violation D o = None.
Proof.
  induction P as [|o P IH]; simpl.
  - split; [|done]. intros _ o H. by apply elem_of_nil in H.
  - rewrite check_operation_spec. destruct (violation D o) eqn:E.
    + split; [discriminate|]. intros H.
      specialize (H o). rewrite E in H. discriminate H. apply elem_of_cons; auto.
    + rewrite IH. split.
      * intros H o' [->|Ho']%elem_of_cons; auto.
      * intros H o' Ho'. apply H, elem_of_cons; auto.
Qed.

Lemma validatePatchSemantics_unit P :
  is_ok (validatePatchSemantics D P) = true ↔ validatePatchSemantics D P = Ok tt.
Proof.
  destruct (validatePatchSemantics D P) as [[]|]; simpl; split; congruence.
Qed.

(** The first failing operation decides. *)
Lemma validatePatchSemantics_app pre post :
  validatePatchSemantics D (pre ++ post) =
  match validatePatchSemantics D pre with
  | Ok _ => validatePatchSemantics D post
  | Err e => Err e
  end.
Proof.
  induction pre as [|o pre IH]; simpl; [done|].
  destruct (check_operation D o); auto.
Qed.

Lemma validatePatchSemantics_err_elem P e :
  validatePatchSemantics D P = Err e → ∃ o, o ∈ P ∧ violation D o = Some e.
Proof.
  induction P as [|o P IH]; simpl; [discriminate|].
  rewrite check_operation_spec. destruct (violation D o) as [e'|] eqn:E.
  - intros [= <-]. exists o. split; [apply elem_of_cons; auto | done].
  - intros (o' & Ho' & Hv)%IH. exists o'. split; [apply elem_of_cons; auto | done].
Qed.

Lemma split_no_slash s : no_slash s = true → split "/" s = [s].
Proof.
  induction s as [|c s IH]; simpl; [done|].
  intros [Hc Hs]%andb_true_iff. apply negb_true_iff, bool_decide_eq_false in Hc.
  rewrite decide_False by done. rewrite IH by done. reflexivity.
Qed.

Lemma parentExists_single seg :
  no_slash seg = true → parentExists D (String "/" seg) = true.
Proof.
  intros H. unfold parentExists, pointerParent.
  destruct (bool_decide (String "/" seg = "/")); simpl; [done|].
  change (split "/" (String "/" seg)) with ("" :: split "/" seg).
  rewrite split_no_slash by done. reflexivity.
Qed.

End SemanticsFacts.

(** ** [split], [join] and the parent of a pointer *)

Section PointerFacts.


Lemma split_nonempty sep s : split sep s ≠ [].
Proof.
  destruct s as [|c s]; simpl; [done|].
  destruct (decide (c = sep)); [done|]. by destruct (split sep s).
Qed.

Lemma split_app_sep sep a b :
  split sep (a ++ String sep b)%string = split sep a ++ split sep b.
Proof.
  induction a as [|c a IH]; rewrite ?append_cons, ?append_empty_l; simpl.
  - by rewrite decide_True.
  - destruct (decide (c = sep)); rewrite IH; [done|].
    pose proof (split_nonempty sep a). by destruct (split sep a).
Qed.

(** [s.split('/').join('/')] is [s]. *)
Lemma join_split s : join "/" (split "/" s) = s.
Proof.
  induction s as [|c s IH]; simpl; [done|].
  pose proof (split_nonempty "/" s) as Hne.
  destruct (decide (c = "/"%char)) as [->|].
  - destruct (split "/" s) as [|x xs]; [done|].
    change (join "/" ("" :: x :: xs))
      with ("" ++ "/" ++ join "/" (x :: xs))%string.
    by rewrite IH.
  - destruct (split "/" s) as [|x xs]; [done|].
    destruct xs as [|y ys].
    + simpl in *. by rewrite IH.
    + change (join "/" (String c x :: y :: ys))
        with (String c (x ++ "/" ++ join "/" (y :: ys)))%string.
      by rewrite <- IH.
Qed.

Lemma slice_init_snoc {A} (l : list A) x : slice_init (l ++ [x]) = l.
Proof.
  unfold slice_init. rewrite length_app. simpl.
  replace (List.length l + 1 - 1) with (List.length l) by lia.
  apply take_app_length.
Qed.

Lemma split_single s : split "/" s = [s] ↔ no_slash s = true.
Proof.
  split; [|apply split_no_slash].
  induction s as [|c s IH]; simpl; [done|].
  destruct (decide (c = "/"%char)) as [->|Hc].
  - intros H. discriminate H.
  - rewrite bool_decide_eq_false_2 by done. simpl.
    pose proof (split_nonempty "/" s) as Hne.
    destruct (split "/" s) as [|x xs] eqn:E; [done|].
    intros [= -> ->]. by apply IH.
Qed.

(** A text with a slash splits at its last slash. *)
Lemma last_slash s :
  no_slash s = false →
  ∃ parent leaf, s = (parent ++ String "/" leaf)%string ∧ no_slash leaf = true.
Proof.
  induction s as [|c s IH]; simpl; [done|].
  destruct (no_slash s) eqn:Hs.
  - rewrite andb_true_r. intros Hc%negb_false_iff%bool_decide_eq_true.
    subst c. exists "", s. done.
  - intros _. destruct (IH eq_refl) as (parent & leaf & -> & Hleaf).
    exists (String c parent), leaf. done.
Qed.

Lemma split_length_one s :
  (List.length (split "/" s) ≤ 1)%nat → no_slash s = true.
Proof.
  intros H. apply split_single.
  pose proof (split_nonempty "/" s) as Hne. pose proof (join_split s) as Hj.
  destruct (split "/" s) as [|x [|y ys]]; [done| |simpl in H; lia].
  simpl in Hj. by subst.
Qed.

Lemma tilde_ok_before_slash a b :
  tilde_ok (a ++ String "/" b) = true → tilde_ok a = true.
Proof.
  induction a as [|c|c d a IHa IHd] using string_ind2;
    rewrite ?append_cons, ?append_empty_l; simpl.
  - done.
  - destruct (decide (c = "~"%char)); [discriminate | done].
  - destruct (decide (c = "~"%char)).
    + intros [Hd Ha]%andb_true_iff. rewrite Hd. simpl. by apply IHa.
    + intros H. exact (IHd H).
Qed.

Lemma pointerParent_append parent leaf :
  no_slash leaf = true →
  pointerParent (parent ++ String "/" leaf)
  = Some (if no_slash parent then "/" else parent).
Proof.
  intros Hleaf. unfold pointerParent.
  rewrite decide_False by (by destruct parent).
  rewrite split_app_sep, (split_no_slash leaf), slice_init_snoc by done.
  destruct (decide (List.length (split "/" parent) ≤ 1)%nat) as [Hlen|Hlen].
  - by rewrite (split_length_one _ Hlen).
  - rewrite join_split.
    destruct (no_slash parent) eqn:Hp.
    + rewrite (split_no_slash _ Hp) in Hlen. simpl in Hlen. lia.
    + rewrite decide_False; [done|]. by intros ->.
Qed.

Lemma parsePointer_child parent leaf sparent :
  parsePointer parent = Some sparent → no_slash leaf = true →
  parsePointer (parent ++ String "/" leaf)
  = Some (sparent ++ [unescapePathComponent leaf]).
Proof.
  unfold parsePointer. destruct parent as [|c rest].
  - intros [= <-] Hleaf. rewrite append_empty_l, decide_True by done.
    by rewrite (split_no_slash leaf).
  - destruct (decide (c = "/"%char)) as [->|]; [|done]. intros [= <-] Hleaf.
    rewrite append_cons, decide_True by done.
    by rewrite split_app_sep, map_app, (split_no_slash leaf).
Qed.

End PointerFacts.

(** ** The unchecked lookup of the package and [resolve] *)

Section LookupFacts.

Context (D : json).

Lemma member_resolve (d : json) k rest v :
  resolve d (k :: rest) = Some v →
  ∃ child, member d k = Some (Defined child) ∧ resolve child rest = Some v.
Proof.
  simpl. destruct d as [| | | |l|m]; try done.
  - destruct (parse_index k) as [i|] eqn:Ei; [|done].
    destruct (l !! i) as [child|] eqn:El; [|done].
    intros H. exists child. split; [|done]. unfold member.
    rewrite decide_False by (intros ->; discriminate Ei).
    destruct k; [done|]. unfold parse_index in Ei. rewrite Ei. simpl.
    by rewrite El.
  - destruct (m !! k) as [child|] eqn:E; [|done].
    intros H. exists child. split; [|done]. unfold member. by rewrite E.
Qed.

(** What [resolve] finds, the lookup answers. *)
Lemma resolve_lookup segments : ∀ (d v : json),
  resolve d segments = Some v → lookup d segments = Some (Defined v).
Proof.
  induction segments as [|k rest IH]; intros d v.
  - by intros [= ->].
  - intros (child & Hm & Hr)%member_resolve. cbn [lookup]. rewrite Hm. auto.
Qed.

(** The last access of a walk is made in what the walk before it found. *)
Lemma lookup_snoc parent : ∀ (d : json) k,
  lookup d (parent ++ [k])
  = match lookup d parent with
    | Some (Defined c) => member c k
    | _ => None
    end.
Proof.
  induction parent as [|a ps IH]; intros d k; cbn [lookup app].
  - by destruct (member d k) as [[|child]|].
  - destruct (member d a) as [[|child]|]; [|apply IH|done].
    by destruct ps.
Qed.

Lemma member_is_Some (c : json) k : is_Some (member c k) ↔ c ≠ JNull.
Proof.
  destruct c; simpl; split; try done; eauto.
Qed.

Lemma getValueByPointer_parse p segments :
  parsePointer p = Some segments →
  getValueByPointer D p = lookup D segments.
Proof.
  unfold parsePointer, getValueByPointer.
  destruct p as [|c rest]; [by intros [= <-]|].
  destruct (decide (c = "/"%char)) as [->|]; [|done]. intros [= <-].
  rewrite decide_False by done. unfold keys. simpl split. simpl tail.
  pose proof (split_nonempty "/" rest) as Hne.
  by destruct (split "/" rest).
Qed.

Lemma pathExists_true p :
  pathExists D p = true ↔ is_Some (getValueByPointer D p).
Proof.
  unfold pathExists. destruct (getValueByPointer D p) as [v|].
  - split; eauto.
  - split; [discriminate|]. intros [v ?]. discriminate.
Qed.

(** A path that exists in the sense of the specification exists for the
    code. *)
Lemma exists_in_pathExists p : exists_in D p = true → pathExists D p = true.
Proof.
  unfold exists_in. destruct (parsePointer p) as [segments|] eqn:Hp; [|done].
  simpl. destruct (resolve D segments) as [v|] eqn:Hv; [|done]. intros _.
  apply pathExists_true.
  rewrite (getValueByPointer_parse _ _ Hp), (resolve_lookup _ _ _ Hv). eauto.
Qed.

Lemma exists_in_resolve p segments :
  parsePointer p = Some segments →
  exists_in D p = true ↔ is_Some (resolve D segments).
Proof.
  intros Hp. unfold exists_in. rewrite Hp. simpl.
  destruct (resolve D segments); split; try done; eauto.
Qed.

(** One segment more: the lookup throws unless the parent pointer leads to
    a value other than [null]. *)
Lemma pathExists_child parent leaf sparent :
  parsePointer parent = Some sparent → no_slash leaf = true →
  pathExists D (parent ++ String "/" leaf) = true
  ↔ ∃ c, getValueByPointer D parent = Some (Defined c) ∧ c ≠ JNull.
Proof.
  intros Hp Hleaf. rewrite pathExists_true.
  rewrite (getValueByPointer_parse _ _ (parsePointer_child _ _ _ Hp Hleaf)).
  rewrite (getValueByPointer_parse _ _ Hp), lookup_snoc.
  destruct (lookup D sparent) as [[|c]|].
  - split; [intros [? ?]; done | intros (c & ? & _); done].
  - rewrite member_is_Some. split; [eauto|]. by intros (c' & [= <-] & ?).
  - split; [intros [? ?]; done | intros (c & ? & _); done].
Qed.

(** The parent the code computes for a pointer of two segments or more is
    the pointer without its last segment, and [parentExists] looks it
    up. *)
Lemma parentExists_below rest leaf :
  no_slash leaf = true →
  parentExists D (String "/" rest ++ String "/" leaf)
  = pathExists D (String "/" rest).
Proof.
  intros Hleaf. unfold parentExists.
  rewrite pointerParent_append by done. rewrite append_cons.
  rewrite bool_decide_eq_false_2 by (by destruct rest).
  rewrite bool_decide_eq_false_2 by done. simpl orb. cbn iota.
  change (no_slash (String "/" rest)) with false. cbn iota.
  rewrite (bool_decide_eq_false_2 (String "/" rest = "")) by done.
  destruct (decide (rest = "")) as [->|Hrest].
  - rewrite append_empty_l. simpl split. rewrite (split_no_slash leaf) by done.
    reflexivity.
  - rewrite (bool_decide_eq_false_2 (String "/" rest = "/"));
      [done | by intros [= ->]].
Qed.

Lemma parentExists_child parent leaf :
  pointer_grammar parent → no_slash leaf = true →
  parentExists D (parent ++ String "/" leaf) = pathExists D parent.
Proof. intros (rest & -> & _). apply parentExists_below. Qed.


Lemma resolve_snoc parent : ∀ (d : json) k,
  resolve d (parent ++ [k])
  = resolve d parent ≫= λ c, resolve c [k].
Proof.
  induction parent as [|a ps IH]; intros d k; [done|].
  change ((a :: ps) ++ [k]) with (a :: (ps ++ [k])). cbn [resolve].
  destruct d as [| | | |l|m]; try done.
  - destruct (parse_index a) as [i|]; [|done].
    destruct (l !! i) as [child|]; [apply IH | done].
  - destruct (m !! a) as [child|]; [apply IH | done].
Qed.

(** Where [add] creates a new member nothing exists, and the lookup of the
    package answers [undefined]. *)
Lemma addable_lookup (d : json) segments :
  addable d segments →
  resolve d segments = None ∧ lookup d segments = Some Undefined.
Proof.
  intros (parent & k & -> & Hfresh).
  rewrite resolve_snoc, lookup_snoc.
  destruct Hfresh as [(m & Hm & Hk) | (l & Hl & Hk)].
  - rewrite Hm, (resolve_lookup _ _ _ Hm). simpl. by rewrite Hk.
  - rewrite Hl, (resolve_lookup _ _ _ Hl). simpl. rewrite Hk.
    assert (Hnone : l !! List.length l = None)
      by (apply lookup_ge_None_2; lia).
    rewrite Hnone. split; [done|].
    rewrite decide_False by (intros ->; discriminate Hk).
    destruct k; [done|]. unfold parse_index in Hk. rewrite Hk. simpl.
    by rewrite Hnone.
Qed.

End LookupFacts.

Section SemanticsClaims.

(** C3, the counterexample: a structurally valid patch holding a [replace]
    of the number at an existing path by a string fails with the
    [PathNotFound] of the [remove] before it, whose path runs through a
    member that does not exist, not with [TypeMismatch]. *)
Lemma C3_earlier_failure_wins :
  let P := [Operation Remove "/data/lfo/rate" None None;
            Operation Replace "/data/filter/cutoff" None (Some (JStr "fast"))] in
  validatePatchStructure
    (JArr [candidate "remove" "/data/lfo/rate" None None;
           candidate "replace" "/data/filter/cutoff" None (Some (JStr "fast"))])
  = Ok P
  ∧ getValueByPointer scenario_D "/data/filter/cutoff"
    = Some (Defined (num 200))
  ∧ validatePatchSemantics scenario_D P
    = Err (PathNotFound "/data/lfo/rate" Remove).
Proof. vm_compute. auto. Qed.

(** C3, as amended: a [replace] at an existing path whose current and
    proposed values are non-null of different kinds is refused with
    [TypeMismatch], expected the current kind and received the proposed
    one; the patch holding it fails, with that very error when no earlier
    operation fails.  When the kinds agree or either value is null the
    operation passes, and the patch is validated as if it were absent. *)
Theorem C3_type_check (D : json) (pre post : ValidatedPatch) (o : operation)
    (current next : json) :
  op o = Replace →
  getValueByPointer D (path o) = Some (Defined current) →
  value o = Some next →
  (is_null current = false → is_null next = false →
   getType current ≠ getType next →
     check_operation D o
     = Err (TypeMismatch (path o) (getType current) (getType next))
     ∧ is_err (validatePatchSemantics D (pre ++ o :: post)) = true
     ∧ (validatePatchSemantics D pre = Ok tt →
        validatePatchSemantics D (pre ++ o :: post)
        = Err (TypeMismatch (path o) (getType current) (getType next))))
  ∧ (is_null current = true ∨ is_null next = true
     ∨ getType current = getType next →
     check_operation D o = Ok tt
     ∧ validatePatchSemantics D (pre ++ o :: post)
       = validatePatchSemantics D (pre ++ post)).
Proof.
  intros Hop Hcur Hnext.
  assert (Hex : existence_violation D o = None).
  { unfold existence_violation, pathExists. by rewrite Hop, Hcur. }
  assert (Hty : type_violation D o =
                if is_null current || is_null next then None
                else if decide (getType current = getType next) then None
                else Some (TypeMismatch (path o) (getType current) (getType next))).
  { unfold type_violation. by rewrite Hop, Hcur, Hnext. }
  split.
  - intros Hc Hn Hk.
    assert (Hcheck : check_operation D o
              = Err (TypeMismatch (path o) (getType current) (getType next))).
    { rewrite check_operation_spec. unfold violation.
      rewrite Hex, Hty, Hc, Hn. simpl. by rewrite decide_False. }
    split_and!; [done| |].
    + rewrite validatePatchSemantics_app. simpl. rewrite Hcheck.
      by destruct (validatePatchSemantics D pre).
    + intros Hpre. rewrite validatePatchSemantics_app, Hpre. simpl.
      by rewrite Hcheck.
  - intros Hsame.
    assert (Hcheck : check_operation D o = Ok tt).
    { rewrite check_operation_spec. unfold violation. rewrite Hex, Hty.
      destruct Hsame as [-> | [-> | E]]; simpl; [done| |].
      - by rewrite orb_true_r.
      - destruct (_ || _); [done|]. by rewrite decide_True. }
    split; [done|].
    rewrite !validatePatchSemantics_app. simpl. by rewrite Hcheck.
Qed.

Lemma C3_type_check_witness :
  validatePatchSemantics scenario_D
    [Operation Replace "/data/filter/cutoff" None (Some (JStr "fast"))]
  = Err (TypeMismatch "/data/filter/cutoff" "number" "string").
Proof.
  refine (proj2 (proj2 (proj1
    (C3_type_check scenario_D [] []
       (Operation Replace "/data/filter/cutoff" None (Some (JStr "fast")))
       (num 200) (JStr "fast") _ _ _) _ _ _)) _).
  - reflexivity.
  - vm_compute. reflexivity.
  - reflexivity.
  - reflexivity.
  - reflexivity.
  - discriminate.
  - reflexivity.
Defined.

(** C5, the counterexample: a structurally valid [replace] at an existing
    path violates no existence precondition, and semantic validation fails
    all the same, on the type check. *)
Lemma C5_fails_without_existence_violation :
  let P := [Operation Replace "/data/filter/cutoff" None (Some (JStr "fast"))] in
  validatePatchStructure
    (JArr [candidate "replace" "/data/filter/cutoff" None (Some (JStr "fast"))])
  = Ok P
  ∧ Forall (λ o, existence_violation scenario_D o = None) P
  ∧ validatePatchSemantics scenario_D P
    = Err (TypeMismatch "/data/filter/cutoff" "number" "string").
Proof.
  split_and!.
  - vm_compute. reflexivity.
  - repeat constructor.
  - vm_compute. reflexivity.
Qed.

(** C5, as amended: semantic validation fails exactly when some operation
    fails its existence check or is a [replace] failing the type check.
    Operations are checked in order against the one document, and the first
    that fails decides: a [replace], [remove] or [test] whose path is
    refused gives [PathNotFound], an [add] whose parent is refused gives
    [ParentMissing], a [move] or [copy] whose [from] is refused gives
    [SourceNotFound].  A path that exists in the document is never refused;
    a path one segment below a pointer that leads nowhere, to [undefined] or
    to [null] always is.  The root pointer and a pointer of one segment
    always have their parent; for a deeper pointer the parent is the pointer
    without its last segment, checked like a path.  (What is decided for a
    path whose last segment alone is missing is not part of the
    statement.) *)
Theorem C5_existence_preconditions (D : json) (P : ValidatedPatch) :
  (is_err (validatePatchSemantics D P) = true ↔
     ∃ o, o ∈ P ∧ (is_Some (existence_violation D o)
                   ∨ is_Some (type_violation D o)))
  ∧ (∀ pre o post,
       P = pre ++ o :: post →
       validatePatchSemantics D pre = Ok tt →
       (op o = Replace ∨ op o = Remove ∨ op o = Test →
        pathExists D (path o) = false →
        validatePatchSemantics D P = Err (PathNotFound (path o) (op o)))
       ∧ (op o = Add → parentExists D (path o) = false →
          validatePatchSemantics D P = Err (ParentMissing (path o)))
       ∧ (∀ f, op o = Move ∨ op o = Copy → from o = Some f →
          pathExists D f = false →
          validatePatchSemantics D P = Err (SourceNotFound f (op o))))
  ∧ (∀ p, exists_in D p = true → pathExists D p = true)
  ∧ (∀ parent leaf,
       is_Some (parsePointer parent) → no_slash leaf = true →
       getValueByPointer D parent = None
       ∨ getValueByPointer D parent = Some Undefined
       ∨ getValueByPointer D parent = Some (Defined JNull) →
       pathExists D (parent ++ String "/" leaf) = false)
  ∧ parentExists D "" = true
  ∧ (∀ seg, no_slash seg = true → parentExists D (String "/" seg) = true)
  ∧ (∀ parent leaf, pointer_grammar parent → no_slash leaf = true →
       parentExists D (parent ++ String "/" leaf) = pathExists D parent).
Proof.
  split_and!.
  - split.
    + destruct (validatePatchSemantics D P) as [|e] eqn:E; [discriminate|].
      intros _. apply validatePatchSemantics_err_elem in E as (o & Ho & Hv).
      exists o. split; [done|]. unfold violation in Hv.
      destruct (existence_violation D o); [left | right]; eauto.
    + intros (o & Ho & Hv).
      unfold is_err. rewrite negb_true_iff, <- not_true_iff_false.
      rewrite validatePatchSemantics_unit, validatePatchSemantics_ok.
      intros Hall. specialize (Hall o Ho). unfold violation in Hall.
      destruct (existence_violation D o); [discriminate|].
      destruct Hv as [[? ?]|[? ?]]; congruence.
  - intros pre o post -> Hpre.
    assert (Hfirst : ∀ e, existence_violation D o = Some e →
              validatePatchSemantics D (pre ++ o :: post) = Err e).
    { intros e He. rewrite validatePatchSemantics_app, Hpre. simpl.
      rewrite check_operation_spec. unfold violation. by rewrite He. }
    split_and!.
    + intros Hk Hno. apply Hfirst. unfold existence_violation.
      destruct Hk as [-> | [-> | ->]]; by rewrite Hno.
    + intros Hk Hno. apply Hfirst. unfold existence_violation.
      by rewrite Hk, Hno.
    + intros f Hk Hf Hno. apply Hfirst. unfold existence_violation.
      rewrite Hf, Hno. by destruct Hk as [-> | ->].
  - apply exists_in_pathExists.
  - intros parent leaf [sparent Hp] Hleaf Hparent.
    apply not_true_is_false.
    intros (c & Hc & Hnull)%(pathExists_child D _ _ _ Hp Hleaf).
    destruct Hparent as [H | [H | H]]; congruence.
  - reflexivity.
  - apply parentExists_single.
  - apply parentExists_child.
Qed.

Lemma C5_existence_preconditions_witness :
  validatePatchSemantics scenario_D
    [Operation Remove "/data/lfo/rate" None None]
  = Err (PathNotFound "/data/lfo/rate" Remove)
  ∧ pathExists scenario_D "/data/filter/cutoff" = true
  ∧ pathExists scenario_D "/data/lfo/rate" = false.
Proof.
  pose proof (C5_existence_preconditions scenario_D
                [Operation Remove "/data/lfo/rate" None None])
    as (_ & Hfirst & Hexists & Hmissing & _).
  split_and!.
  - refine (proj1 (Hfirst [] _ [] eq_refl eq_refl) _ _).
    + right. left. reflexivity.
    + vm_compute. reflexivity.
  - apply Hexists. vm_compute. reflexivity.
  - refine (Hmissing "/data/lfo" "rate" _ _ _).
    + vm_compute. eauto.
    + reflexivity.
    + right. left. vm_compute. reflexivity.
Defined.

End SemanticsClaims.

(** ** The applicator and its reading on values *)

Section ApplicatorFacts.

Lemma frame_refl c s : frame c s s.
Proof. split; auto. Qed.

Lemma frame_insert c s v : is_Some (s !! c) → frame c s (<[c:=v]> s).
Proof.
  intros Hc. split.
  - apply dom_insert_subseteq.
  - intros l Hl _. by rewrite lookup_insert_ne.
Qed.

Lemma frame_alloc c s v : frame c s (<[fresh (dom s):=v]> s).
Proof.
  split.
  - apply dom_insert_subseteq.
  - intros l _ Hl. rewrite lookup_insert_ne; [done|].
    intros <-. apply elem_of_dom in Hl. by apply is_fresh in Hl.
Qed.

Create HintDb frames.
#[local] Hint Resolve frame_refl frame_insert frame_alloc : frames.

Lemma frame_trans c c1 s s1 s2 :
  frame c s s1 → c1 = c ∨ c1 ∉ dom s → frame c1 s1 s2 → frame c s s2.
Proof.
  intros [Hd1 Hf1] Hc1 [Hd2 Hf2]. split; [by etrans|].
  intros l Hl Hs. rewrite <- (Hf1 l Hl Hs). apply Hf2.
  - destruct Hc1 as [-> | Hc1]; [done|].
    intros ->. apply Hc1. by apply elem_of_dom.
  - by rewrite (Hf1 l Hl Hs).
Qed.

Lemma fresh_or c c1 c2 (s s1 : store) :
  dom s ⊆ dom s1 → c1 = c ∨ c1 ∉ dom s → c2 = c1 ∨ c2 ∉ dom s1 →
  c2 = c ∨ c2 ∉ dom s.
Proof.
  intros Hd [-> | H1] [-> | H2]; auto; right; intros H; apply H2, Hd, H.
Qed.

Lemma update_spec c segments f e s d :
  s !! c = Some d →
  simulates c s (update c segments f e s) (opt_result e (f d)).
Proof.
  intros Hc. unfold update, bind, read, from_option.
  rewrite (lookup_total_correct _ _ _ Hc).
  destruct (f d) as [d'|]; simpl.
  - destruct segments; simpl.
    + split; [cbn; auto with frames |]. exists d'. split_and!; auto.
      * apply lookup_insert_eq.
      * right. apply is_fresh.
    + split; [cbn; eauto with frames |]. exists d'. split_and!; auto.
      apply lookup_insert_eq.
  - split; [cbn; auto with frames | done].
Qed.

Lemma simulates_err c s e : simulates c s (Err e, s) (Err e).
Proof. split; [apply frame_refl | done]. Qed.

Lemma applyOperation_spec c o s d :
  s !! c = Some d →
  simulates c s (applyOperation c o s) (applyOperation_value d o).
Proof.
  intros Hc. unfold applyOperation, applyOperation_value.
  unfold bind at 1. unfold from_option at 1.
  destruct (parsePointer (path o)) as [segments|];
    simpl; [|apply simulates_err].
  destruct (op o).
  - unfold bind, from_option. destruct (value o) as [v|]; simpl;
      [|apply simulates_err].
    by apply (update_spec c segments (λ d, add_value d segments v)).
  - by apply (update_spec c segments (λ d, remove_value d segments)).
  - unfold bind, from_option. destruct (value o) as [v|]; simpl;
      [|apply simulates_err].
    by apply (update_spec c segments (λ d, replace_value d segments v)).
  - unfold bind at 1. unfold from_option at 1.
    destruct (from o ≫= parsePointer) as [source|];
      simpl; [|apply simulates_err].
    unfold bind at 1, read at 1. rewrite (lookup_total_correct _ _ _ Hc).
    unfold bind at 1. unfold from_option at 1.
    destruct (resolve d source) as [v|]; simpl; [|apply simulates_err].
    by apply (update_spec c segments (λ d, add_value d segments v)).
  - unfold bind at 1. unfold from_option at 1.
    destruct (from o ≫= parsePointer) as [source|];
      simpl; [|apply simulates_err].
    unfold bind at 1, read at 1. rewrite (lookup_total_correct _ _ _ Hc).
    unfold bind at 1. unfold from_option at 1.
    destruct (resolve d source) as [v|]; simpl; [|apply simulates_err].
    unfold bind.
    pose proof (update_spec c source (λ d, remove_value d source)
                  (CannotApply Move (path o)) s d Hc) as [Hf1 H1].
    destruct (update c source _ _ s) as [[c1|e1] s1]; simpl in *.
    + destruct H1 as (d1 & E1 & Hc1 & Hor1).
      destruct (remove_value d source) as [d1'|]; simplify_eq/=.
      pose proof (update_spec c1 segments (λ d, add_value d segments v)
                    (CannotApply Move (path o)) s1 d1 Hc1) as [Hf2 H2].
      destruct (update c1 segments _ _ s1) as [[c2|e2] s2]; simpl in *.
      * destruct H2 as (d2 & E2 & Hc2 & Hor2). split.
        { exact (frame_trans c c1 s s1 _ Hf1 Hor1 Hf2). }
        exists d2. split_and!; auto.
        apply (fresh_or c c1 c2 s s1); [apply Hf1 | done | done].
      * split; [exact (frame_trans c c1 s s1 _ Hf1 Hor1 Hf2) | done].
    + destruct (remove_value d source); simplify_eq/=. by split.
  - unfold bind at 1. unfold from_option at 1.
    destruct (value o) as [expected|]; simpl; [|apply simulates_err].
    unfold bind at 1, read at 1. rewrite (lookup_total_correct _ _ _ Hc).
    unfold bind at 1. unfold from_option at 1.
    destruct (resolve d segments) as [actual|]; simpl; [|apply simulates_err].
    destruct (decide (actual = expected)); [|apply simulates_err].
    split; [apply frame_refl|]. simpl. exists d. auto.
Qed.

Lemma applyPatch_spec P : ∀ c s d,
  s !! c = Some d →
  simulates c s (applyPatch c P s) (applyPatch_value d P).
Proof.
  induction P as [|o P IH]; intros c s d Hc; simpl.
  - split; [apply frame_refl|]. simpl. exists d. auto.
  - unfold bind.
    pose proof (applyOperation_spec c o s d Hc) as [Hf1 H1].
    destruct (applyOperation c o s) as [[c1|e1] s1]; simpl in *.
    + destruct H1 as (d1 & -> & Hc1 & Hor1).
      pose proof (IH c1 s1 d1 Hc1) as [Hf2 H2].
      split; [exact (frame_trans c c1 s s1 _ Hf1 Hor1 Hf2)|].
      destruct (applyPatch c1 P s1) as [[c2|e2] s2]; simpl in *; [|done].
      destruct H2 as (d2 & E2 & Hc2 & Hor2). exists d2. split_and!; auto.
      apply (fresh_or c c1 c2 s s1); [apply Hf1 | done | done].
    + rewrite H1. split; [done | reflexivity].
Qed.

Lemma applyPatchWithValidation_eq document P s :
  applyPatchWithValidation document P s =
  let w := fresh (dom s) in
  let s1 := <[w := s !!! document]> s in
  match validatePatchSemantics (s !!! document) P with
  | Ok _ => applyPatch w P s1
  | Err e => (Err e, s1)
  end.
Proof.
  unfold applyPatchWithValidation, deepClone, bind, read, alloc, lift.
  simpl. rewrite lookup_total_insert_eq. reflexivity.
Qed.

(** The code on a store and its reading on values agree; the objects the
    caller held before the call, the document among them, are as they
    were, and the document returned is a new object. *)
Lemma applyPatchWithValidation_spec document P s D :
  s !! document = Some D →
  let run := applyPatchWithValidation document P s in
  (∀ l, is_Some (s !! l) → run.2 !! l = s !! l)
  ∧ match run.1 with
    | Ok c' =>
        ∃ D', apply_value D P = Ok D' ∧ run.2 !! c' = Some D' ∧ c' ∉ dom s
    | Err e => apply_value D P = Err e
    end.
Proof.
  intros Hdoc run. subst run. rewrite applyPatchWithValidation_eq.
  rewrite (lookup_total_correct _ _ _ Hdoc). unfold apply_value. simpl.
  set (w := fresh (dom s)). set (s1 := <[w:=D]> s).
  assert (Hw : w ∉ dom s) by apply is_fresh.
  assert (Hw1 : s1 !! w = Some D) by apply lookup_insert_eq.
  assert (Hkeep : ∀ l, is_Some (s !! l) → s1 !! l = s !! l).
  { intros l Hl. unfold s1. rewrite lookup_insert_ne; [done|].
    intros <-. by apply elem_of_dom in Hl. }
  destruct (validatePatchSemantics D P) as [[]|e]; simpl; [|by split].
  pose proof (applyPatch_spec P w s1 D Hw1) as [[Hd Hf] H].
  assert (Hsub : dom s ⊆ dom s1) by apply dom_insert_subseteq.
  split.
  - intros l Hl. rewrite <- (Hkeep l Hl). apply Hf.
    + intros ->. by apply elem_of_dom in Hl.
    + by rewrite (Hkeep l Hl).
  - destruct (applyPatch w P s1) as [[c'|e] s']; simpl in *; [|done].
    destruct H as (D' & E & Hc' & Hor). exists D'. split_and!; auto.
    destruct Hor as [-> | Hor]; [done|]. intros Hin. apply Hor, Hsub, Hin.
Qed.

Lemma apply_eq D P : apply D P = apply_value D P.
Proof.
  unfold apply.
  pose proof (applyPatchWithValidation_spec 0 P {[0 := D]} D
                (lookup_singleton_eq _ _)) as [_ H].
  destruct (applyPatchWithValidation 0 P {[0 := D]}) as [[c|e] s'];
    simpl in *.
  - destruct H as (D' & -> & Hc & _).
    by rewrite (lookup_total_correct _ _ _ Hc).
  - by rewrite H.
Qed.

End ApplicatorFacts.

(** ** Adding and removing at a location of a tree *)

Section TreeFacts.

Lemma at_parent_cons leaf D k rest :
  rest ≠ [] →
  at_parent leaf D (k :: rest)
  = descend D k (λ child, at_parent leaf child rest).
Proof. destruct rest; [done | reflexivity]. Qed.

Lemma add_value_cons D k rest v :
  rest ≠ [] →
  add_value D (k :: rest) v = descend D k (λ child, add_value child rest v).
Proof.
  intros H. unfold add_value at 1. rewrite at_parent_cons by done.
  destruct rest; [done | reflexivity].
Qed.

Lemma remove_value_cons D k rest :
  rest ≠ [] →
  remove_value D (k :: rest) = descend D k (λ child, remove_value child rest).
Proof.
  intros H. unfold remove_value at 1. rewrite at_parent_cons by done.
  destruct rest; [done | reflexivity].
Qed.

Lemma parse_index_not_marker k i : parse_index k = Some i → k ≠ "-".
Proof. intros H ->. discriminate. Qed.

(** Removing an element of a sequence and inserting it back at its
    index. *)
Lemma array_remove_insert (l : list json) i v :
  l !! i = Some v →
  (i ≤ List.length (delete i l))%nat
  ∧ take i (delete i l) ++ v :: drop i (delete i l) = l.
Proof.
  intros H. pose proof (lookup_lt_Some _ _ _ H) as Hlt.
  rewrite length_delete by eauto. split; [lia|].
  rewrite delete_take_drop.
  rewrite take_app_length' by (rewrite length_take_le; lia).
  rewrite drop_app_length' by (rewrite length_take_le; lia).
  by apply take_drop_middle.
Qed.

(** Removing the last segment of an existing location, then adding the
    removed value back at it, restores the tree. *)
Lemma remove_then_add segments : ∀ D v,
  segments ≠ [] →
  resolve D segments = Some v →
  ∃ D', remove_value D segments = Some D'
        ∧ add_value D' segments v = Some D.
Proof.
  induction segments as [|k rest IH]; intros D v Hne Hres; [done|].
  destruct rest as [|k' rest'].
  - simpl in *. destruct D as [| | | |l|m]; try discriminate.
    + destruct (parse_index k) as [i|] eqn:Ei; [|discriminate].
      destruct (l !! i) as [x|] eqn:El; [|discriminate].
      injection Hres as ->.
      exists (JArr (delete i l)). unfold remove_leaf, add_leaf.
      rewrite Ei, El. split; [reflexivity|].
      rewrite (decide_False (P := k = "-"))
        by (eapply parse_index_not_marker; eauto).
      destruct (array_remove_insert l i v El) as [Hle Heq].
      rewrite decide_True by done. by rewrite Heq.
    + destruct (m !! k) as [x|] eqn:Em; [|discriminate].
      injection Hres as ->.
      exists (JObj (delete k m)). unfold remove_leaf, add_leaf.
      rewrite Em. split; [reflexivity|].
      by rewrite insert_delete_eq, insert_id.
  - rewrite remove_value_cons by done.
    change (resolve D (k :: k' :: rest') = Some v) in Hres.
    simpl in Hres. destruct D as [| | | |l|m]; try discriminate.
    + destruct (parse_index k) as [i|] eqn:Ei; [|discriminate].
      destruct (l !! i) as [child|] eqn:El; [|discriminate].
      destruct (IH child v ltac:(done) Hres) as (child' & Hrem & Hadd).
      unfold descend at 1. rewrite Ei, El, Hrem.
      eexists; split; [reflexivity|].
      rewrite add_value_cons by done. unfold descend. rewrite Ei.
      rewrite list_lookup_insert_eq by (eapply lookup_lt_Some; eauto).
      rewrite Hadd, list_insert_insert_eq, list_insert_id by done. done.
    + destruct (m !! k) as [child|] eqn:Em; [|discriminate].
      destruct (IH child v ltac:(done) Hres) as (child' & Hrem & Hadd).
      unfold descend at 1. rewrite Em, Hrem.
      eexists; split; [reflexivity|].
      rewrite add_value_cons by done. unfold descend.
      rewrite lookup_insert_eq, Hadd, insert_insert_eq, insert_id by done.
      done.
Qed.



(** Adding at a location where [add] creates a new member, then removing
    it, restores the tree; in between the location holds the value. *)
Lemma add_then_remove parent : ∀ D k v,
  (∃ m, resolve D parent = Some (JObj m) ∧ m !! k = None)
  ∨ (∃ l, resolve D parent = Some (JArr l)
          ∧ parse_index k = Some (List.length l)) →
  ∃ D1, add_value D (parent ++ [k]) v = Some D1
        ∧ resolve D1 (parent ++ [k]) = Some v
        ∧ remove_value D1 (parent ++ [k]) = Some D.
Proof.
  induction parent as [|k0 parent IH]; intros D k v Hadd.
  - simpl in *. destruct Hadd as [(m & [= ->] & Hk) | (l & [= ->] & Hk)].
    + eexists; split_and!; [reflexivity|..]; simpl.
      * by rewrite lookup_insert_eq.
      * by rewrite lookup_insert_eq, delete_insert_id.
    + unfold add_leaf.
      rewrite (decide_False (P := k = "-"))
        by (eapply parse_index_not_marker; eauto).
      rewrite Hk. rewrite decide_True by done.
      rewrite take_ge, drop_ge by done.
      exists (JArr (l ++ [v])). split_and!; [reflexivity|..].
      * by rewrite list_lookup_middle.
      * unfold remove_leaf. rewrite Hk, list_lookup_middle by done.
        by rewrite delete_middle, app_nil_r.
  - assert (Hne : parent ++ [k] ≠ []) by (by destruct parent).
    change ((k0 :: parent) ++ [k]) with (k0 :: (parent ++ [k])).
    rewrite add_value_cons by done.
    assert (Hchild : ∃ child,
      ((∃ m, D = JObj m ∧ m !! k0 = Some child)
       ∨ (∃ l i, D = JArr l ∧ parse_index k0 = Some i ∧ l !! i = Some child))
      ∧ ((∃ m, resolve child parent = Some (JObj m) ∧ m !! k = None)
         ∨ (∃ l, resolve child parent = Some (JArr l)
                 ∧ parse_index k = Some (List.length l)))).
    { simpl in Hadd. destruct D as [| | | |l|m];
        try (destruct Hadd as [(? & ? & _) | (? & ? & _)]; discriminate).
      - destruct (parse_index k0) as [i|] eqn:Ei;
          [|destruct Hadd as [(? & ? & _) | (? & ? & _)]; discriminate].
        destruct (l !! i) as [child|] eqn:El;
          [|destruct Hadd as [(? & ? & _) | (? & ? & _)]; discriminate].
        exists child. split; [right; eauto | done].
      - destruct (m !! k0) as [child|] eqn:Em;
          [|destruct Hadd as [(? & ? & _) | (? & ? & _)]; discriminate].
        exists child. split; [left; eauto | done]. }
    destruct Hchild as (child & HD & Hc).
    destruct (IH child k v Hc) as (child1 & Ha & Hr & Hd).
    destruct HD as [(m & -> & Hm) | (l & i & -> & Hi & Hl)].
    + unfold descend at 1. rewrite Hm, Ha.
      eexists; split_and!; [reflexivity|..].
      * simpl. by rewrite lookup_insert_eq.
      * rewrite remove_value_cons by done. unfold descend.
        by rewrite lookup_insert_eq, Hd, insert_insert_eq, insert_id.
    + unfold descend at 1. rewrite Hi, Hl, Ha.
      pose proof (lookup_lt_Some _ _ _ Hl) as Hlt.
      eexists; split_and!; [reflexivity|..].
      * simpl. by rewrite Hi, list_lookup_insert_eq.
      * rewrite remove_value_cons by done. unfold descend.
        rewrite Hi, list_lookup_insert_eq, Hd by done.
        by rewrite list_insert_insert_eq, list_insert_id.
Qed.

Lemma parsePointer_grammar p :
  pointer_grammar p →
  p ≠ "" ∧ ∃ k rest, parsePointer p = Some (k :: rest).
Proof.
  intros (rest & -> & _). split; [done|]. simpl.
  destruct (split "/" rest) as [|seg segs] eqn:E.
  - destruct rest; simpl in E; [discriminate|].
    destruct (decide _); [discriminate|]. by destruct (split "/" rest).
  - simpl. eauto.
Qed.

End TreeFacts.

(** ** The applicator *)

Section ApplicatorClaims.

(** Applying directly, without the copy, changes the object of the caller:
    the store does tell a mutated document from an untouched one. *)
Lemma applyPatch_mutates_in_place :
  let P := [Operation Replace "/data/filter/cutoff" None (Some (num 800))] in
  let run := applyPatch 0 P {[0 := scenario_D]} in
  run.1 = Ok 0
  ∧ run.2 !! 0
    = Some (JObj {[ "data" :=
              JObj {[ "filter" := JObj {[ "cutoff" := num 800 ]} ]} ]})
  ∧ run.2 !! 0 ≠ Some scenario_D.
Proof.
  intros P run. split_and!.
  - vm_compute. reflexivity.
  - assert (H : bool_decide (run.2 !! 0 = Some (JObj {[ "data" :=
              JObj {[ "filter" := JObj {[ "cutoff" := num 800 ]} ]} ]}))
              = true) by (vm_compute; reflexivity).
    by apply bool_decide_eq_true in H.
  - assert (H : bool_decide (run.2 !! 0 = Some scenario_D) = false)
      by (vm_compute; reflexivity).
    by apply bool_decide_eq_false in H.
Qed.

(** C1: whatever the patch, and whether the call returns a document or
    throws, the document of the caller holds after the call the value it
    held before, as does every other object the caller had; a document that
    is returned is another object. *)
Theorem C1_original_untouched (s : store) (document : loc) (D : json)
    (P : ValidatedPatch) :
  s !! document = Some D →
  let run := applyPatchWithValidation document P s in
  run.2 !! document = Some D
  ∧ (∀ l, is_Some (s !! l) → run.2 !! l = s !! l)
  ∧ (∀ c, run.1 = Ok c → c ≠ document ∧ is_Some (run.2 !! c)).
Proof.
  intros Hdoc run.
  destruct (applyPatchWithValidation_spec document P s D Hdoc) as [Hkeep H].
  fold run in Hkeep, H. split_and!.
  - rewrite Hkeep; eauto.
  - exact Hkeep.
  - intros c Hc. rewrite Hc in H. destruct H as (D' & _ & HD' & Hnew).
    split; [|eauto]. intros ->. apply Hnew. by apply elem_of_dom.
Qed.

(** A call that fails half way: the [replace] is done on the working copy,
    then the [test] fails; the document of the caller is intact. *)
Lemma C1_original_untouched_witness :
  let P := [Operation Replace "/data/filter/cutoff" None (Some (num 800));
            Operation Test "/data/filter/cutoff" None (Some (num 200))] in
  let run := applyPatchWithValidation 0 P {[0 := scenario_D]} in
  run.1 = Err (TestFailed "/data/filter/cutoff")
  ∧ run.2 !! 0 = Some scenario_D.
Proof.
  intros P run. split.
  - vm_compute. reflexivity.
  - refine (proj1 (C1_original_untouched {[0 := scenario_D]} 0 scenario_D P _)).
    vm_compute. reflexivity.
Defined.

(** C6: the empty patch is structurally valid, semantically valid against
    every document, and applies to a document equal to the original. *)
Theorem C6_empty_patch (D : json) :
  validatePatchStructure (JArr []) = Ok []
  ∧ validatePatchSemantics D [] = Ok tt
  ∧ apply D [] = Ok D.
Proof.
  split_and!; [reflexivity | reflexivity |]. by rewrite apply_eq.
Qed.




(** C7, the counterexample: the first element of a sequence of two exists,
    index 2 does not and its parent does; the [move] removes the element
    first, index 2 is then beyond the end of the sequence, and [apply]
    fails.  Likewise for a move of a member to a new key of its own. *)
Lemma C7_move_fails :
  let A := "/list/0" in
  let B := "/list/2" in
  let A' := "/data/filter" in
  let B' := "/data/filter/backup" in
  validatePatchStructure (JArr [candidate "move" B (Some (JStr A)) None])
  = Ok [Operation Move B (Some A) None]
  ∧ exists_in list_D A = true
  ∧ exists_in list_D B = false
  ∧ parentExists list_D B = true
  ∧ apply list_D [Operation Move B (Some A) None]
    = Err (CannotApply Move B)
  ∧ exists_in scenario_D A' = true
  ∧ exists_in scenario_D B' = false
  ∧ parentExists scenario_D B' = true
  ∧ apply scenario_D [Operation Move B' (Some A') None]
    = Err (CannotApply Move B').
Proof. vm_compute. split_and!; reflexivity. Qed.

Lemma validate_move D A B :
  A ≠ "" → pathExists D A = true →
  validatePatchSemantics D [Operation Move B (Some A) None] = Ok tt.
Proof.
  intros HA Hex. simpl. rewrite check_operation_spec.
  unfold violation, existence_violation, type_violation. simpl.
  by rewrite Hex.
Qed.

Lemma apply_move D A B sA sB v D' D1 :
  A ≠ "" →
  parsePointer A = Some sA → parsePointer B = Some sB →
  resolve D sA = Some v →
  remove_value D sA = Some D' →
  add_value D' sB v = Some D1 →
  apply D [Operation Move B (Some A) None] = Ok D1.
Proof.
  intros HA HsA HsB Hv Hrem Hadd. rewrite apply_eq. unfold apply_value.
  rewrite validate_move; [|done|].
  - simpl. unfold applyOperation_value. simpl.
    by rewrite HsB, HsA, Hv, Hrem, Hadd.
  - apply exists_in_pathExists. apply (exists_in_resolve _ _ _ HsA). eauto.
Qed.

(** C7, as amended: let [A] exist in [D] and let [B] be, in [D] with [A]
    removed, a location where [add] creates a new member (its parent is a
    map without that key, or a sequence whose length is that index).  Then
    [apply] of the move from [A] to [B] succeeds, and [apply] of the move
    back from [B] to [A] on its result yields [D]. *)
Theorem C7_move_there_and_back (D D' : json) (A B : string)
    (sA sB : list string) :
  pointer_grammar A → pointer_grammar B →
  parsePointer A = Some sA → parsePointer B = Some sB →
  exists_in D A = true →
  remove_value D sA = Some D' →
  addable D' sB →
  ∃ D1, apply D [Operation Move B (Some A) None] = Ok D1
        ∧ apply D1 [Operation Move A (Some B) None] = Ok D.
Proof.
  intros HgA HgB HsA HsB Hex Hrem (parent & k & -> & Hfresh).
  destruct (parsePointer_grammar A HgA) as (HA & kA & restA & HsA').
  destruct (parsePointer_grammar B HgB) as (HB & _).
  assert (Hv : ∃ v, resolve D sA = Some v)
    by (by apply (exists_in_resolve _ _ _ HsA)).
  destruct Hv as [v Hv].
  assert (HneA : sA ≠ []) by congruence.
  destruct (remove_then_add sA D v HneA Hv) as (D'' & Hrem' & Hback).
  assert (D'' = D') as -> by congruence.
  destruct (add_then_remove parent D' k v Hfresh) as (D1 & Hadd & Hat & Hgone).
  exists D1. split.
  - exact (apply_move D A B sA (parent ++ [k]) v D' D1
             HA HsA HsB Hv Hrem Hadd).
  - exact (apply_move D1 B A (parent ++ [k]) sA v D' D
             HB HsB HsA Hat Hgone Hback).
Qed.

Lemma C7_move_there_and_back_witness :
  ∃ D1, apply scenario_D
          [Operation Move "/data/cutoff" (Some "/data/filter/cutoff") None]
        = Ok D1
        ∧ apply D1
            [Operation Move "/data/filter/cutoff" (Some "/data/cutoff") None]
          = Ok scenario_D.
Proof.
  refine (C7_move_there_and_back scenario_D
    (JObj {[ "data" := JObj {[ "filter" := JObj ∅ ]} ]})
    "/data/filter/cutoff" "/data/cutoff"
    ["data"; "filter"; "cutoff"] ["data"; "cutoff"] _ _ _ _ _ _ _).
  - exists "data/filter/cutoff". split; reflexivity.
  - exists "data/cutoff". split; reflexivity.
  - reflexivity.
  - reflexivity.
  - vm_compute. reflexivity.
  - assert (H : bool_decide
      (remove_value scenario_D ["data"; "filter"; "cutoff"]
       = Some (JObj {[ "data" := JObj {[ "filter" := JObj ∅ ]} ]})) = true)
      by (vm_compute; reflexivity).
    by apply bool_decide_eq_true in H.
  - exists ["data"], "cutoff". split; [reflexivity|]. left.
    exists {[ "filter" := JObj ∅ ]}. split; vm_compute; reflexivity.
Defined.

End ApplicatorClaims.

(** * Further properties of validate.ts *)

(** ** [split], [join] and [pointerParent] *)

Section PointerParentFacts.

(** X1: [pointerParent] on every string.  The empty string has no parent;
    a text without a slash has the parent [/]; the parent of
    [parent/leaf], [leaf] without a slash, is [parent], or [/] when [parent]
    itself has no slash.  So the result is never the empty string, and the
    fallback after [join] is never taken. *)
Theorem pointerParent_characterised :
  pointerParent "" = None
  ∧ (∀ s, s ≠ "" → no_slash s = true → pointerParent s = Some "/")
  ∧ (∀ parent leaf, no_slash leaf = true →
       pointerParent (parent ++ String "/" leaf)
       = Some (if no_slash parent then "/" else parent))
  ∧ (∀ s q, pointerParent s = Some q → q ≠ "")
  ∧ (∀ segments, (2 ≤ List.length segments)%nat → join "/" segments ≠ "").
Proof.
  split_and!.
  - reflexivity.
  - intros s Hs Hno. unfold pointerParent. rewrite decide_False by done.
    rewrite split_no_slash by done. reflexivity.
  - apply pointerParent_append.
  - intros s q. unfold pointerParent.
    destruct (decide (s = "")); [done|].
    destruct (decide _); [by intros [= <-]|].
    destruct (decide (join "/" _ = "")); intros [= <-]; done.
  - intros [|x [|y ys]] H; simpl in H; try lia.
    change (join "/" (x :: y :: ys))
      with (x ++ String "/" (join "/" (y :: ys)))%string.
    by destruct x.
Qed.

(** X2: the parent of a pointer of the grammar is a pointer of the grammar,
    and appending a segment undoes it: for a segment without a slash whose
    every [~] is followed by [0] or [1], [pointer/segment] is in the grammar
    and its parent is [pointer]. *)
Theorem pointerParent_grammar (p : string) :
  pointer_grammar p →
  (∃ q, pointerParent p = Some q ∧ pointer_grammar q)
  ∧ (∀ segment, no_slash segment = true → tilde_ok segment = true →
       pointer_grammar (p ++ String "/" segment)
       ∧ pointerParent (p ++ String "/" segment) = Some p).
Proof.
  intros (rest & -> & Hrest). split.
  - destruct (no_slash rest) eqn:Hno.
    + exists "/". split; [|by exists ""].
      change (String "/" rest) with ("" ++ String "/" rest)%string.
      by rewrite pointerParent_append.
    + destruct (last_slash rest Hno) as (pr & leaf & -> & Hleaf).
      exists (String "/" pr). split.
      * change (String "/" (pr ++ String "/" leaf))
          with (String "/" pr ++ String "/" leaf)%string.
        by rewrite pointerParent_append.
      * exists pr. split; [done|]. by eapply tilde_ok_before_slash.
  - intros segment Hno Hok. split.
    + exists (rest ++ String "/" segment)%string. split; [done|].
      by apply tilde_ok_app.
    + by rewrite pointerParent_append.
Qed.

Lemma pointerParent_grammar_witness :
  (∃ q, pointerParent "/data/filter/cutoff" = Some q ∧ pointer_grammar q)
  ∧ pointerParent "/data/filter/cutoff" = Some "/data/filter".
Proof.
  split.
  - refine (proj1 (pointerParent_grammar "/data/filter/cutoff" _)).
    exists "data/filter/cutoff". split; reflexivity.
  - reflexivity.
Defined.

End PointerParentFacts.

(** ** [validatePatchSemantics]: one snapshot for every operation *)

Section SnapshotFacts.

Context (D : json).

Lemma validate_single o :
  validatePatchSemantics D [o] = Ok tt ↔ violation D o = None.
Proof.
  rewrite validatePatchSemantics_ok. split.
  - intros H. apply H. apply elem_of_cons; auto.
  - intros H o' [-> | []%elem_of_nil]%elem_of_cons. done.
Qed.

Lemma is_ok_validate P :
  is_ok (validatePatchSemantics D P) = true
  ↔ ∀ o, o ∈ P → violation D o = None.
Proof. by rewrite validatePatchSemantics_unit, validatePatchSemantics_ok. Qed.

(** X3: a patch passes semantic validation exactly when each of its
    operations passes on its own; hence success does not depend on the order
    of the operations, and a concatenation passes exactly when both parts
    do. *)
Theorem validatePatchSemantics_each_alone (P : ValidatedPatch) :
  (validatePatchSemantics D P = Ok tt
   ↔ ∀ o, o ∈ P → validatePatchSemantics D [o] = Ok tt)
  ∧ (∀ Q, P ≡ₚ Q →
       is_ok (validatePatchSemantics D P) = is_ok (validatePatchSemantics D Q))
  ∧ (∀ Q, validatePatchSemantics D (P ++ Q) = Ok tt
          ↔ validatePatchSemantics D P = Ok tt
            ∧ validatePatchSemantics D Q = Ok tt).
Proof.
  split_and!.
  - rewrite validatePatchSemantics_ok. split; intros H o Ho.
    + by apply validate_single, H.
    + by apply validate_single, H.
  - intros Q HPQ. apply eq_true_iff_eq. rewrite !is_ok_validate.
    split; intros H o Ho; apply H; [by rewrite HPQ | by rewrite <- HPQ].
  - intros Q. rewrite !validatePatchSemantics_ok. split.
    + intros H. split; intros o Ho; apply H, elem_of_app; auto.
    + intros [H1 H2] o [Ho|Ho]%elem_of_app; auto.
Qed.

(** X4: when semantic validation fails, the error is one of the four the
    function itself constructs, it has a message, and it is about an
    operation of the patch; the exception of the resolver caught in the
    type check of a [replace] is never what is thrown. *)
Theorem validatePatchSemantics_errors (P : ValidatedPatch) (e : SemanticError) :
  validatePatchSemantics D P = Err e →
  is_Some (error_message e)
  ∧ ∃ o, o ∈ P
      ∧ (e = PathNotFound (path o) (op o)
         ∨ e = ParentMissing (path o)
         ∨ (∃ f, from o = Some f ∧ e = SourceNotFound f (op o))
         ∨ ∃ expected received,
             e = TypeMismatch (path o) expected received
             ∧ expected ≠ received).
Proof.
  intros (o & Ho & Hv)%validatePatchSemantics_err_elem.
  assert (Hcases : e = PathNotFound (path o) (op o)
         ∨ e = ParentMissing (path o)
         ∨ (∃ f, from o = Some f ∧ e = SourceNotFound f (op o))
         ∨ ∃ expected received,
             e = TypeMismatch (path o) expected received
             ∧ expected ≠ received).
  { unfold violation, existence_violation, type_violation in Hv.
    destruct (op o) eqn:Hop.
    - destruct (parentExists D (path o)); simplify_eq; auto.
    - destruct (pathExists D (path o)); simplify_eq; auto.
    - destruct (pathExists D (path o)); [|simplify_eq; auto].
      destruct (getValueByPointer D (path o)) as [cur|]; [|done].
      destruct (value o) as [next|]; [|done].
      destruct (_ || _); [done|].
      destruct (decide _) as [|Hne]; simplify_eq.
      right; right; right. eauto.
    - destruct (from o) as [f|]; [|done].
      destruct (pathExists D f); simplify_eq. right; right; left. eauto.
    - destruct (from o) as [f|]; [|done].
      destruct (pathExists D f); simplify_eq. right; right; left. eauto.
    - destruct (pathExists D (path o)); simplify_eq; auto. }
  split; [|eauto].
  destruct Hcases as [-> | [-> | [(f & _ & ->) | (x & y & -> & _)]]];
    simpl; eauto.
Qed.

Lemma validate_replace_operation pre post o o' :
  check_operation D o = check_operation D o' →
  validatePatchSemantics D (pre ++ o :: post)
  = validatePatchSemantics D (pre ++ o' :: post).
Proof.
  intros H. rewrite !validatePatchSemantics_app. simpl. by rewrite H.
Qed.

(** X5: what semantic validation never looks at.  The [value] of an
    operation other than [replace], the [path] of a [move] or [copy] (its
    destination is not checked at all), and the [from] of an operation other
    than [move] and [copy] can be changed at will without changing the
    outcome. *)
Theorem validatePatchSemantics_ignores (pre post : ValidatedPatch)
    (k : opkind) (p p' : string) (f f' : option string) (v v' : option json) :
  (k ≠ Replace →
     validatePatchSemantics D (pre ++ Operation k p f v :: post)
     = validatePatchSemantics D (pre ++ Operation k p f v' :: post))
  ∧ (k = Move ∨ k = Copy →
     validatePatchSemantics D (pre ++ Operation k p f v :: post)
     = validatePatchSemantics D (pre ++ Operation k p' f v :: post))
  ∧ (k ≠ Move → k ≠ Copy →
     validatePatchSemantics D (pre ++ Operation k p f v :: post)
     = validatePatchSemantics D (pre ++ Operation k p f' v :: post)).
Proof.
  split_and!.
  - intros Hk. apply validate_replace_operation.
    unfold check_operation. simpl. by destruct k.
  - intros Hk. apply validate_replace_operation.
    unfold check_operation. simpl. by destruct Hk as [-> | ->].
  - intros HM HC. apply validate_replace_operation.
    unfold check_operation. simpl. by destruct k.
Qed.

End SnapshotFacts.

Lemma validatePatchSemantics_errors_witness :
  is_Some (error_message (PathNotFound "/data/lfo/rate" Replace)).
Proof.
  refine (proj1 (validatePatchSemantics_errors scenario_D
    [Operation Replace "/data/lfo/rate" None (Some (num 3))]
    (PathNotFound "/data/lfo/rate" Replace) _)).
  vm_compute. reflexivity.
Defined.

(** ** A path whose last segment alone is missing *)

Section MissingLeaf.

(** X21: at a location where [add] would create a new member (the parent
    is a map without that key, or a sequence of that length) nothing exists,
    yet [pathExists] is true there, because the lookup answers [undefined]
    without throwing.  So semantic validation lets a [remove] and a [test]
    at that path pass, as well as a [move] or [copy] from it and an [add]
    below it; a [replace] passes when its value is [null] and fails
    otherwise, not with [PathNotFound] but with a [TypeMismatch] that
    expects the kind [undefined]. *)
Theorem validatePatchSemantics_missing_leaf (D : json) (p : string)
    (segments : list string) :
  parsePointer p = Some segments →
  addable D segments →
  exists_in D p = false
  ∧ pathExists D p = true
  ∧ (∀ v, validatePatchSemantics D [Operation Remove p None None] = Ok tt
          ∧ validatePatchSemantics D [Operation Test p None (Some v)] = Ok tt
          ∧ validatePatchSemantics D [Operation Replace p None (Some v)]
            = if is_null v then Ok tt
              else Err (TypeMismatch p "undefined" (getType v)))
  ∧ (∀ k q, k = Move ∨ k = Copy →
       validatePatchSemantics D [Operation k q (Some p) None] = Ok tt)
  ∧ (∀ leaf v, no_slash leaf = true →
       validatePatchSemantics D
         [Operation Add (p ++ String "/" leaf) None (Some v)] = Ok tt).
Proof.
  intros Hp Hfresh.
  destruct (addable_lookup _ _ Hfresh) as [Hnone Hundef].
  assert (Hget : getValueByPointer D p = Some Undefined)
    by (by rewrite (getValueByPointer_parse _ _ _ Hp)).
  assert (Hex : pathExists D p = true) by (unfold pathExists; by rewrite Hget).
  assert (Hslash : ∃ rest, p = String "/" rest).
  { destruct Hfresh as (parent & k & -> & _).
    unfold parsePointer in Hp. destruct p as [|c rest].
    - injection Hp as Hp. by destruct parent.
    - destruct (decide (c = "/"%char)) as [->|]; [eauto | done]. }
  split_and!.
  - unfold exists_in. rewrite Hp. simpl. by rewrite Hnone.
  - exact Hex.
  - intros v. split_and!; simpl; rewrite check_operation_spec;
      unfold violation, existence_violation, type_violation; simpl;
      rewrite ?Hex, ?Hget; try reflexivity.
    destruct v; reflexivity.
  - intros k q Hk. simpl. rewrite check_operation_spec.
    unfold violation, existence_violation, type_violation. simpl.
    rewrite Hex. by destruct Hk as [-> | ->].
  - intros leaf v Hleaf. simpl. rewrite check_operation_spec.
    unfold violation, existence_violation, type_violation. simpl.
    destruct Hslash as [rest ->].
    by rewrite parentExists_below, Hex.
Qed.

Lemma validatePatchSemantics_missing_leaf_witness :
  exists_in sampleDoc "/data/filter/resonance" = false
  ∧ validatePatchSemantics sampleDoc
      [Operation Remove "/data/filter/resonance" None None] = Ok tt.
Proof.
  destruct (validatePatchSemantics_missing_leaf sampleDoc
              "/data/filter/resonance" ["data"; "filter"; "resonance"])
    as (Hnone & _ & Hpass & _).
  - reflexivity.
  - exists ["data"; "filter"], "resonance". split; [reflexivity|]. left.
    exists {[ "cutoff" := num 200 ]}. split; vm_compute; reflexivity.
  - split; [exact Hnone | exact (proj1 (Hpass JNull))].
Defined.

End MissingLeaf.

(** ** [validatePatchStructure]: what an accepted patch is *)

Section AcceptedPatch.

Ltac lookup_keys :=
  repeat (rewrite lookup_insert_eq
          || (rewrite lookup_insert_ne by done)
          || rewrite lookup_singleton_eq
          || (rewrite lookup_singleton_ne by done)
          || rewrite lookup_delete_eq
          || (rewrite lookup_delete_ne by done)
          || rewrite lookup_empty).

Lemma parse_opkind_inv s k : parse_opkind s = Some k → s = opkind_name k.
Proof.
  unfold parse_opkind. repeat (destruct (decide _) as [->|]; [by intros [= <-]|]).
  discriminate.
Qed.

Lemma parse_op_some x k issues :
  parse_op x = (Some k, issues) → x = Some (JStr (opkind_name k)).
Proof.
  unfold parse_op. destruct x as [[|?|?|s|?|?]|]; try discriminate.
  destruct (parse_opkind s) as [k'|] eqn:Hk; [|discriminate].
  intros [= <- _]. by apply parse_opkind_inv in Hk as ->.
Qed.

Lemma parse_path_some x p issues :
  parse_path x = (Some p, issues) → x = Some (JStr p).
Proof.
  unfold parse_path. destruct x as [[|?|?|s|?|?]|]; try discriminate.
  by intros [= <- _].
Qed.

Lemma parse_from_some x f issues :
  parse_from x = (Some f, issues) → x = JStr <$> f.
Proof.
  unfold parse_from. destruct x as [[|?|?|s|?|?]|]; try discriminate;
    by intros [= <- _].
Qed.

Lemma parse_field_none {A} (parse : option json → field A) x issues :
  (∀ y, (parse y).1 = None → (parse y).2 ≠ []) →
  parse x = (None, issues) → issues ≠ [].
Proof. intros H E. specialize (H x). rewrite E in H. by apply H. Qed.

Lemma parse_op_none y : (parse_op y).1 = None → (parse_op y).2 ≠ [].
Proof.
  unfold parse_op. destruct y as [[|?|?|s|?|?]|]; try done.
  by destruct (parse_opkind s).
Qed.

Lemma parse_path_none y : (parse_path y).1 = None → (parse_path y).2 ≠ [].
Proof. unfold parse_path. by destruct y as [[|?|?|s|?|?]|]. Qed.

Lemma parse_from_none y : (parse_from y).1 = None → (parse_from y).2 ≠ [].
Proof. unfold parse_from. by destruct y as [[|?|?|s|?|?]|]. Qed.

(** The object behind an operation parsed without issues. *)
Lemma operationSchema_fields c o :
  operationSchema c = (Some o, []) →
  ∃ m, c = JObj m
    ∧ m !! "op" = Some (JStr (opkind_name (op o)))
    ∧ m !! "path" = Some (JStr (path o))
    ∧ m !! "from" = JStr <$> from o
    ∧ m !! "value" = value o.
Proof.
  unfold operationSchema, parse_value.
  destruct c as [|?|?|?|?|m]; try discriminate. exists m.
  destruct (parse_op (m !! "op")) as [[k|] i1] eqn:Eop;
    destruct (parse_path (m !! "path")) as [[p|] i2] eqn:Ep;
    destruct (parse_from (m !! "from")) as [[f|] i3] eqn:Ef;
    try discriminate.
  injection H as <- _. simpl.
  apply parse_op_some in Eop. apply parse_path_some in Ep.
  apply parse_from_some in Ef. done.
Qed.

Lemma operationSchema_none c issues :
  operationSchema c = (None, issues) → issues ≠ [].
Proof.
  unfold operationSchema, parse_value.
  destruct c as [|?|?|?|?|m]; try (by intros [= <-]).
  destruct (parse_op (m !! "op")) as [[k|] i1] eqn:Eop;
    destruct (parse_path (m !! "path")) as [[p|] i2] eqn:Ep;
    destruct (parse_from (m !! "from")) as [[f|] i3] eqn:Ef;
    try discriminate; intros [= <-]; intros H;
    repeat (apply app_eq_nil in H as [? H]); subst;
    first [ by apply (parse_field_none _ _ _ parse_op_none) in Eop
          | by apply (parse_field_none _ _ _ parse_path_none) in Ep
          | by apply (parse_field_none _ _ _ parse_from_none) in Ef ].
Qed.

Lemma parse_elements_accepts n cs P :
  (parse_elements n cs).2 = [] ∧ omap id (parse_elements n cs).1 = P
  ↔ Forall2 (λ c o, operationSchema c = (Some o, [])) cs P.
Proof.
  revert n P. induction cs as [|c cs IH]; intros n P; simpl.
  - split.
    + intros [_ <-]. constructor.
    + intros ->%Forall2_nil_inv_l. done.
  - destruct (operationSchema c) as [o es] eqn:Ec.
    specialize (IH (S n)).
    destruct (parse_elements (S n) cs) as [os more]. simpl in *. split.
    + intros [[Hes ->]%app_eq_nil <-].
      apply fmap_nil_inv in Hes as ->.
      destruct o as [o|]; [|by apply operationSchema_none in Ec].
      simpl. constructor; [done|]. by apply IH.
    + intros (o' & P' & Hc & HP & ->)%Forall2_cons_inv_l.
      rewrite Ec in Hc. injection Hc as -> ->.
      apply IH in HP as [-> <-]. done.
Qed.

(** An accepted patch is the candidate array, element by element. *)
Lemma validatePatchStructure_accepts cs P :
  validatePatchStructure (JArr cs) = Ok P
  ↔ Forall2 (λ c o, operationSchema c = (Some o, [])) cs P.
Proof.
  rewrite <- (parse_elements_accepts 0).
  unfold validatePatchStructure, patchSchema.
  destruct (parse_elements 0 cs) as [os [|x issues]]; simpl.
  - split; [intros [= <-]; done | intros [_ <-]; done].
  - split; [discriminate | intros [? _]; discriminate].
Qed.

(** X6: an accepted patch has one operation for each element of the
    candidate array, in the same order, and each operation is the element
    read field by field: the kind, the path, [from] and [value] present
    exactly when the keys are, with the same contents.  Nothing is
    rewritten, defaulted or dropped. *)
Theorem validatePatchStructure_passes_through (cs : list json)
    (P : ValidatedPatch) :
  validatePatchStructure (JArr cs) = Ok P →
  List.length P = List.length cs
  ∧ ∀ i o, P !! i = Some o →
      ∃ m, cs !! i = Some (JObj m)
        ∧ m !! "op" = Some (JStr (opkind_name (op o)))
        ∧ m !! "path" = Some (JStr (path o))
        ∧ m !! "from" = JStr <$> from o
        ∧ m !! "value" = value o.
Proof.
  intros H%validatePatchStructure_accepts. split.
  - symmetry. by eapply Forall2_length.
  - intros i o Ho.
    destruct (Forall2_lookup_r _ _ _ _ _ H Ho) as (c & Hc & Hparse).
    apply operationSchema_fields in Hparse as (m & -> & Hfields). eauto.
Qed.

Lemma validatePatchStructure_passes_through_witness :
  List.length [Operation Replace "/data/filter/cutoff" None (Some (num 800))]
  = List.length
      [candidate "replace" "/data/filter/cutoff" None (Some (num 800))].
Proof.
  refine (proj1 (validatePatchStructure_passes_through _ _ _)).
  vm_compute. reflexivity.
Defined.

Lemma parse_elements_ext n cs cs' :
  map operationSchema cs = map operationSchema cs' →
  parse_elements n cs = parse_elements n cs'.
Proof.
  revert n cs'. induction cs as [|c cs IH]; intros n [|c' cs'] H;
    try discriminate; [done|].
  injection H as Hc H. simpl. rewrite Hc. by rewrite (IH (S n) cs' H).
Qed.

Lemma operationSchema_extra_key m k v :
  k ∉ schema_keys →
  operationSchema (JObj (<[k:=v]> m)) = operationSchema (JObj m).
Proof.
  intros Hk. unfold schema_keys in Hk.
  rewrite !not_elem_of_cons in Hk. destruct Hk as (? & ? & ? & ? & _).
  unfold operationSchema. by rewrite !lookup_insert_ne.
Qed.

(** X7: keys other than [op], [path], [from] and [value] play no role: an
    element with one more key gives the same result, accepted patch or
    issues. *)
Theorem validatePatchStructure_extra_key (cs : list json) (i : nat)
    (m : gmap string json) (k : string) (v : json) :
  cs !! i = Some (JObj m) →
  k ∉ schema_keys →
  validatePatchStructure (JArr (<[i := JObj (<[k:=v]> m)]> cs))
  = validatePatchStructure (JArr cs).
Proof.
  intros Hi Hk. unfold validatePatchStructure, patchSchema.
  rewrite (parse_elements_ext 0 _ cs); [done|].
  rewrite list_fmap_insert, operationSchema_extra_key by done.
  apply list_insert_id. by rewrite list_lookup_fmap, Hi.
Qed.

Lemma validatePatchStructure_extra_key_witness :
  validatePatchStructure
    (JArr [JObj {[ "comment" := JStr "louder"; "op" := JStr "remove";
                   "path" := JStr "/data" ]}])
  = validatePatchStructure
      (JArr [JObj {[ "op" := JStr "remove"; "path" := JStr "/data" ]}]).
Proof.
  refine (validatePatchStructure_extra_key
    [JObj {[ "op" := JStr "remove"; "path" := JStr "/data" ]}] 0
    {[ "op" := JStr "remove"; "path" := JStr "/data" ]}
    "comment" (JStr "louder") _ _).
  - reflexivity.
  - unfold schema_keys. rewrite !not_elem_of_cons. split_and!; try done.
    apply not_elem_of_nil.
Defined.

(** X8: a concatenation of candidate arrays is accepted exactly when both
    arrays are, and the accepted patch is the concatenation of theirs. *)
Theorem validatePatchStructure_app (cs1 cs2 : list json) (P : ValidatedPatch) :
  validatePatchStructure (JArr (cs1 ++ cs2)) = Ok P
  ↔ ∃ P1 P2, P = P1 ++ P2
      ∧ validatePatchStructure (JArr cs1) = Ok P1
      ∧ validatePatchStructure (JArr cs2) = Ok P2.
Proof.
  rewrite validatePatchStructure_accepts, Forall2_app_inv_l. split.
  - intros (P1 & P2 & H1 & H2 & ->). exists P1, P2.
    by rewrite !validatePatchStructure_accepts.
  - intros (P1 & P2 & -> & H1 & H2). exists P1, P2.
    by rewrite <- !validatePatchStructure_accepts.
Qed.

(** X9: what every operation of an accepted patch is guaranteed to have:
    a path in the pointer grammar; a value when it is an [add], a [replace]
    or a [test]; a non-empty [from] in the pointer grammar when it is a
    [move] or a [copy]. *)
Theorem validatePatchStructure_guarantees (candidates : json)
    (P : ValidatedPatch) (o : operation) :
  validatePatchStructure candidates = Ok P →
  o ∈ P →
  pointer_grammar (path o)
  ∧ (op o = Add ∨ op o = Replace ∨ op o = Test → is_Some (value o))
  ∧ (op o = Move ∨ op o = Copy →
     ∃ f, from o = Some f ∧ f ≠ "" ∧ pointer_grammar f).
Proof.
  intros HP Ho.
  pose proof (validatePatchStructure_well_formed _ _ HP) as Hall.
  rewrite Forall_forall in Hall. destruct (Hall o Ho) as [Hpath Hrefine].
  unfold superRefine in Hrefine.
  apply app_eq_nil in Hrefine as [Hvalue Hrefine].
  apply app_eq_nil in Hrefine as [Hfrom Hpattern].
  split_and!.
  - by apply pointer_grammar_test.
  - intros Hk. destruct (value o); [eauto|].
    destruct Hk as [Hk | [Hk | Hk]]; rewrite Hk in Hvalue; discriminate.
  - intros Hk. unfold truthy in *.
    destruct (from o) as [f|].
    + exists f. destruct (decide (f = "")) as [->|Hf].
      * destruct Hk as [Hk | Hk]; rewrite Hk in Hfrom; discriminate.
      * split_and!; [done..|]. apply pointer_grammar_test.
        rewrite (bool_decide_eq_false_2 (f = "")) in Hpattern by done.
        destruct (jsonPointerPattern_test f); [done|].
        destruct Hk as [Hk | Hk]; rewrite Hk in Hpattern; discriminate.
    + destruct Hk as [Hk | Hk]; rewrite Hk in Hfrom; discriminate.
Qed.

Lemma validatePatchStructure_guarantees_witness :
  pointer_grammar "/data/b".
Proof.
  refine (proj1 (validatePatchStructure_guarantees
    (JArr [candidate "move" "/data/b" (Some (JStr "/data/a")) None])
    [Operation Move "/data/b" (Some "/data/a") None]
    (Operation Move "/data/b" (Some "/data/a") None) _ _)).
  - vm_compute. reflexivity.
  - apply elem_of_cons. auto.
Defined.

Lemma operationSchema_encode o :
  well_formed o → operationSchema (encode_operation o) = (Some o, []).
Proof.
  intros [Hpath Hrefine]. destruct o as [k p f v].
  unfold encode_operation, candidate, operationSchema, parse_op, parse_path,
    parse_from, parse_value. simpl in *.
  destruct f as [f|], v as [v|]; simpl; lookup_keys; simpl;
    rewrite parse_opkind_name, Hpath, Hrefine; reflexivity.
Qed.

(** X10: validation is a round trip on its own output: the operations of an
    accepted patch, written back as JSON objects, are accepted again and
    give the same patch. *)
Theorem validatePatchStructure_round_trip (candidates : json)
    (P : ValidatedPatch) :
  validatePatchStructure candidates = Ok P →
  validatePatchStructure (JArr (encode_operation <$> P)) = Ok P.
Proof.
  intros HP. apply validatePatchStructure_accepts.
  pose proof (validatePatchStructure_well_formed _ _ HP) as Hall.
  clear HP. induction Hall as [|o P Ho _ IH]; simpl; constructor; [|done].
  by apply operationSchema_encode.
Qed.

Lemma validatePatchStructure_round_trip_witness :
  validatePatchStructure
    (JArr (encode_operation <$>
       [Operation Move "/data/b" (Some "/data/a") None]))
  = Ok [Operation Move "/data/b" (Some "/data/a") None].
Proof.
  refine (validatePatchStructure_round_trip
    (JArr [JObj {[ "op" := JStr "move"; "path" := JStr "/data/b";
                   "from" := JStr "/data/a"; "note" := JNull ]}]) _ _).
  vm_compute. reflexivity.
Defined.

End AcceptedPatch.

Section OptionalValue.

(** X11: an operation is never rejected for the value it carries: the
    issues of an object do not depend on what its [value] is, and for
    [remove], [move] and [copy] not even on whether the key is there. *)
Theorem operationSchema_value_free (m : gmap string json) (v v' : json) :
  (operationSchema (JObj (<["value" := v]> m))).2
  = (operationSchema (JObj (<["value" := v']> m))).2
  ∧ (∀ s k, m !! "op" = Some (JStr s) → parse_opkind s = Some k →
       k = Remove ∨ k = Move ∨ k = Copy →
       (operationSchema (JObj (<["value" := v]> m))).2
       = (operationSchema (JObj (delete "value" m))).2).
Proof.
  split.
  - unfold operationSchema, parse_value.
    rewrite !lookup_insert_eq, !lookup_insert_ne by done.
    destruct (parse_op (m !! "op")) as [[k|] i1];
      destruct (parse_path (m !! "path")) as [[p|] i2];
      destruct (parse_from (m !! "from")) as [[f|] i3]; reflexivity.
  - intros s k Hop Hk Hkind. unfold operationSchema, parse_value.
    rewrite lookup_insert_eq, lookup_delete_eq, !lookup_insert_ne,
      !lookup_delete_ne by done.
    rewrite Hop. unfold parse_op. rewrite Hk.
    destruct (parse_path (m !! "path")) as [[p|] i2];
      destruct (parse_from (m !! "from")) as [[f|] i3]; try reflexivity.
    unfold superRefine. simpl.
    by destruct Hkind as [-> | [-> | ->]].
Qed.

End OptionalValue.

(** ** [applyPatchWithValidation] and the handler of [/api/modify] *)

Section Handler.

(** X12: [applyPatchWithValidation] throws exactly what semantic validation
    of the same document throws, and when it returns a document, validation
    of the original had passed. *)
Theorem apply_validates_first (D : json) (P : ValidatedPatch) :
  (∀ e, validatePatchSemantics D P = Err e → apply D P = Err e)
  ∧ (∀ D', apply D P = Ok D' → validatePatchSemantics D P = Ok tt)
  ∧ (∀ s document, s !! document = Some D →
       ∀ e, validatePatchSemantics D P = Err e →
       (applyPatchWithValidation document P s).1 = Err e).
Proof.
  split_and!.
  - intros e He. rewrite apply_eq. unfold apply_value. by rewrite He.
  - intros D'. rewrite apply_eq. unfold apply_value.
    by destruct (validatePatchSemantics D P) as [[]|].
  - intros s document Hdoc e He.
    destruct (applyPatchWithValidation_spec document P s D Hdoc) as [_ H].
    unfold apply_value in H. rewrite He in H.
    destruct (applyPatchWithValidation document P s).1; [|congruence].
    destruct H as (? & ? & _). discriminate.
Qed.

(** X13: in the handler of [/api/modify] the call of
    [validatePatchSemantics] before [applyPatchWithValidation] changes
    nothing of what is sent: with or without it the handler sends the same
    patch with the same patched document, or the same error.  What it sends
    is the structural issues, or the validated patch with the document
    [apply] computes from the value of the request's document, or the error
    of [apply].  Whatever the answer, the document of the request and every
    other object are as they were. *)
Theorem modify_validation_redundant (s : store) (document : loc) (D : json)
    (patch : json) :
  s !! document = Some D →
  response (modify document patch s)
  = response (modify_unchecked document patch s)
  ∧ response (modify document patch s)
    = match validatePatchStructure patch with
      | Err issues => Err (Structural issues)
      | Ok validatedPatch =>
          match apply D validatedPatch with
          | Ok patched => Ok (validatedPatch, patched)
          | Err e => Err (Semantic e)
          end
      end
  ∧ ∀ l, is_Some (s !! l) → (modify document patch s).2 !! l = s !! l.
Proof.
  intros Hdoc. unfold modify, modify_unchecked.
  destruct (validatePatchStructure patch) as [P|issues]; [|done].
  rewrite (lookup_total_correct _ _ _ Hdoc), apply_eq.
  destruct (applyPatchWithValidation_spec document P s D Hdoc) as [Hkeep H].
  unfold apply_value in *.
  destruct (validatePatchSemantics D P) as [[]|e] eqn:Hv.
  - destruct (applyPatchWithValidation document P s) as [[l|e] s'];
      simpl in *.
    + destruct H as (D' & -> & Hl & _).
      by rewrite (lookup_total_correct _ _ _ Hl).
    + by rewrite H.
  - destruct (applyPatchWithValidation document P s) as [[l|e'] s'];
      simpl in *.
    + destruct H as (? & ? & _). discriminate.
    + split_and!; [congruence | done | done].
Qed.

Lemma modify_validation_redundant_witness :
  let patch :=
    JArr [candidate "replace" "/data/filter/cutoff" None (Some (num 800))] in
  response (modify 0 patch {[0 := scenario_D]})
  = response (modify_unchecked 0 patch {[0 := scenario_D]}).
Proof.
  intros patch.
  refine (proj1 (modify_validation_redundant {[0 := scenario_D]} 0
                   scenario_D patch _)).
  vm_compute. reflexivity.
Defined.

(** X22: the outcome of [applyPatchWithValidation], the error or the value
    of the document returned, depends on the value of the document and on
    the patch alone: it is the same in any two stores and at any two
    objects that hold equal documents, whatever else the stores hold. *)
Theorem outcome_independent_of_store (D : json) (P : ValidatedPatch)
    (s1 s2 : store) (d1 d2 : loc) :
  s1 !! d1 = Some D → s2 !! d2 = Some D →
  outcome (applyPatchWithValidation d1 P s1)
  = outcome (applyPatchWithValidation d2 P s2)
  ∧ outcome (applyPatchWithValidation d1 P s1) = apply D P.
Proof.
  intros H1 H2.
  assert (Hout : ∀ s d, s !! d = Some D →
            outcome (applyPatchWithValidation d P s) = apply_value D P).
  { intros s d Hd.
    destruct (applyPatchWithValidation_spec d P s D Hd) as [_ H].
    destruct (applyPatchWithValidation d P s) as [[c|e] s']; simpl in *.
    - destruct H as (D' & -> & Hc & _).
      by rewrite (lookup_total_correct _ _ _ Hc).
    - by rewrite H. }
  by rewrite (Hout s1 d1), (Hout s2 d2), apply_eq.
Qed.

Lemma outcome_independent_of_store_witness :
  let P := [Operation Replace "/data/filter/cutoff" None (Some (num 800))] in
  outcome (applyPatchWithValidation 0 P {[0 := scenario_D]})
  = outcome (applyPatchWithValidation 7 P {[3 := JNull; 7 := scenario_D]}).
Proof.
  intros P.
  refine (proj1 (outcome_independent_of_store scenario_D P
       {[0 := scenario_D]} {[3 := JNull; 7 := scenario_D]} 0 7 _ _)).
  - vm_compute. reflexivity.
  - vm_compute. reflexivity.
Defined.

End Handler.

(** ** Strings: [indexOf], [lastIndexOf], [slice], [endsWith] *)

Section StringFacts.

Lemma length_app (s t : string) :
  String.length (s ++ t)%string = (String.length s + String.length t)%nat.
Proof.
  induction s as [|c s IH]; [done|]. rewrite append_cons. simpl. by rewrite IH.
Qed.

Lemma append_empty_r (s : string) : (s ++ "")%string = s.
Proof.
  induction s as [|c s IH]; [done|]. rewrite append_cons. by rewrite IH.
Qed.

Lemma substring_all (s : string) : substring 0 (String.length s) s = s.
Proof. induction s as [|c s IH]; simpl; [done | by rewrite IH]. Qed.

Lemma substring_prefix (s t : string) :
  substring 0 (String.length s) (s ++ t)%string = s.
Proof.
  induction s as [|c s IH]; [by destruct t|].
  rewrite append_cons. simpl. by rewrite IH.
Qed.

Lemma substring_skip (pre s : string) (n : nat) :
  substring (String.length pre) n (pre ++ s)%string = substring 0 n s.
Proof.
  induction pre as [|c pre IH]; [done|]. rewrite append_cons. simpl. done.
Qed.

Lemma substring_middle (pre body post : string) :
  substring (String.length pre) (String.length body)
    (pre ++ body ++ post)%string = body.
Proof. by rewrite substring_skip, substring_prefix. Qed.

Lemma substring_split (s : string) (k : nat) :
  (k ≤ String.length s)%nat →
  s = (substring 0 k s ++ substring k (String.length s - k) s)%string.
Proof.
  revert k. induction s as [|c s IH]; intros [|k] Hk; simpl in *;
    try done; try lia.
  - by rewrite substring_all.
  - rewrite append_cons, <- (IH k) by lia. done.
Qed.

Lemma endsWith_spec (s suffix : string) :
  endsWith s suffix = true ↔ ∃ pre, s = (pre ++ suffix)%string.
Proof.
  unfold endsWith. rewrite andb_true_iff, bool_decide_eq_true, Nat.leb_le.
  split.
  - intros [Hsub Hlen].
    exists (substring 0 (String.length s - String.length suffix) s).
    pose proof (substring_split s (String.length s - String.length suffix))
      as H.
    replace (String.length s - (String.length s - String.length suffix))%nat
      with (String.length suffix) in H by lia.
    rewrite Hsub in H. apply H. lia.
  - intros [pre ->]. rewrite length_app. split; [|lia].
    replace (String.length pre + String.length suffix - String.length suffix)%nat
      with (String.length pre) by lia.
    rewrite substring_skip. apply substring_all.
Qed.

Lemma indexOf_None_cons c a s :
  indexOf c (String a s) = None ↔ a ≠ c ∧ indexOf c s = None.
Proof.
  simpl. destruct (decide (a = c)); [split; [done | intros [? _]; done] |].
  destruct (indexOf c s); simpl; split; try done; intros [_ ?]; done.
Qed.

Lemma indexOf_None_app c (s t : string) :
  indexOf c (s ++ t)%string = None ↔ indexOf c s = None ∧ indexOf c t = None.
Proof.
  induction s as [|a s IH].
  - rewrite append_empty_l. simpl. tauto.
  - rewrite append_cons, !indexOf_None_cons, IH. tauto.
Qed.

Lemma lastIndexOf_None c s : lastIndexOf c s = None ↔ indexOf c s = None.
Proof.
  induction s as [|a s IH]; [done|].
  rewrite indexOf_None_cons, <- IH. simpl.
  destruct (lastIndexOf c s); [split; [done | intros [_ ?]; done] |].
  destruct (decide (a = c)); split; try done; tauto.
Qed.

Lemma indexOf_first c (pre rest : string) :
  indexOf c pre = None →
  indexOf c (pre ++ String c rest)%string = Some (String.length pre).
Proof.
  induction pre as [|a pre IH].
  - intros _. rewrite append_empty_l. simpl. by rewrite decide_True.
  - intros [Ha Hpre]%indexOf_None_cons. rewrite append_cons. simpl.
    rewrite decide_False by done. by rewrite IH.
Qed.

Lemma lastIndexOf_last c (s post : string) :
  indexOf c post = None →
  lastIndexOf c (s ++ String c post)%string = Some (String.length s).
Proof.
  intros Hpost. induction s as [|a s IH].
  - rewrite append_empty_l. simpl.
    apply lastIndexOf_None in Hpost. rewrite Hpost. by rewrite decide_True.
  - rewrite append_cons. simpl. by rewrite IH.
Qed.

Lemma indexOf_Some c s i :
  indexOf c s = Some i →
  ∃ pre rest, s = (pre ++ String c rest)%string ∧ indexOf c pre = None
              ∧ String.length pre = i.
Proof.
  revert i. induction s as [|a s IH]; intros i; simpl; [done|].
  destruct (decide (a = c)) as [->|Hne].
  - intros [= <-]. by exists "", s.
  - destruct (indexOf c s) as [j|] eqn:E; simpl; [|done]. intros [= <-].
    destruct (IH j eq_refl) as (pre & rest & -> & Hpre & <-).
    exists (String a pre), rest. split_and!; [done | | done].
    by apply indexOf_None_cons.
Qed.

Lemma lastIndexOf_Some c s j :
  lastIndexOf c s = Some j →
  ∃ init post, s = (init ++ String c post)%string ∧ indexOf c post = None
               ∧ String.length init = j.
Proof.
  revert j. induction s as [|a s IH]; intros j; simpl; [done|].
  destruct (lastIndexOf c s) as [i|] eqn:E.
  - intros [= <-].
    destruct (IH i eq_refl) as (init & post & -> & Hpost & <-).
    by exists (String a init), post.
  - destruct (decide (a = c)) as [->|]; [|done]. intros [= <-].
    exists "", s. by rewrite <- lastIndexOf_None.
Qed.

Lemma append_split (s1 t1 s2 t2 : string) :
  (s1 ++ t1)%string = (s2 ++ t2)%string →
  (String.length s1 ≤ String.length s2)%nat →
  ∃ m, s2 = (s1 ++ m)%string ∧ t1 = (m ++ t2)%string.
Proof.
  revert s2. induction s1 as [|a s1 IH]; intros s2.
  - rewrite append_empty_l. intros -> _. by exists s2.
  - destruct s2 as [|b s2]; rewrite ?append_cons; simpl; [lia|].
    intros [= -> H] Hlen.
    destruct (IH s2 H) as (m & -> & ->); [lia|]. by exists m.
Qed.

Lemma map_string_app f (s t : string) :
  map_string f (s ++ t)%string = (map_string f s ++ map_string f t)%string.
Proof.
  induction s as [|c s IH]; [done|].
  rewrite append_cons. simpl. by rewrite IH.
Qed.

Lemma map_string_length f s :
  String.length (map_string f s) = String.length s.
Proof. induction s as [|c s IH]; simpl; [done | by rewrite IH]. Qed.

Lemma map_string_app_inv f (s u v : string) :
  map_string f s = (u ++ v)%string →
  ∃ a b, s = (a ++ b)%string ∧ map_string f a = u ∧ map_string f b = v.
Proof.
  revert s. induction u as [|c u IH]; intros s.
  - rewrite append_empty_l. intros H. by exists "", s.
  - destruct s as [|d s]; rewrite append_cons; simpl; [done|].
    intros [= Hc H].
    destruct (IH s H) as (a & b & -> & <- & <-).
    exists (String d a), b. simpl. by rewrite Hc.
Qed.

Lemma indexOf_map_None f c s :
  f c = c → indexOf c (map_string f s) = None → indexOf c s = None.
Proof.
  intros Hf. induction s as [|a s IH]; simpl map_string; [done|].
  rewrite !indexOf_None_cons. intros [Ha Hs]. split; [|auto].
  intros ->. done.
Qed.

Lemma all_chars_indexOf P c s :
  all_chars P s = true → P c = false → indexOf c s = None.
Proof.
  intros Hs Hc. induction s as [|a s IH]; [done|].
  simpl in Hs. apply andb_true_iff in Hs as [Ha Hs].
  apply indexOf_None_cons. split; [|auto]. intros ->. congruence.
Qed.

End StringFacts.

(** ** File names: [safeName] of [/api/pack], the upload filter and
    [handleDownload] *)

Section FileNameFacts.

Lemma replace_unsafe_kept s : all_chars kept (replace_unsafe s) = true.
Proof.
  unfold replace_unsafe.
  induction s as [|c s IH]; [done|]. simpl. rewrite IH, andb_true_r.
  destruct (kept c) eqn:E; [done | reflexivity].
Qed.

Lemma replace_unsafe_fixed s : replace_unsafe s = s ↔ all_chars kept s = true.
Proof.
  split.
  - intros <-. apply replace_unsafe_kept.
  - unfold replace_unsafe. induction s as [|c s IH]; [done|]. simpl.
    intros [Hc Hs]%andb_true_iff. rewrite Hc. f_equal. auto.
Qed.

Lemma safeName_kept filename : all_chars kept (safeName filename) = true.
Proof.
  destruct filename as [f|]; [|reflexivity]. simpl.
  destruct (decide (replace_unsafe f = "")); [reflexivity|].
  apply replace_unsafe_kept.
Qed.

Lemma safeName_nonempty filename : safeName filename ≠ "".
Proof.
  destruct filename as [f|]; [|done]. simpl.
  by destruct (decide (replace_unsafe f = "")).
Qed.

(** X14: whatever name the request of [/api/pack] carries, the name put in
    the [Content-Disposition] header is not empty and is made of letters,
    digits, [-] and [_] only: it holds no double quote, slash, backslash,
    dot, semicolon, space, carriage return or line feed, so it cannot close
    the quoted value, add a header or name a path. *)
Theorem safeName_header_safe (filename : option string) :
  safeName filename ≠ ""
  ∧ all_chars kept (safeName filename) = true
  ∧ ∀ c, c ∈ [quote; "/"; "\"; "."; ";"; " "; ascii_of_nat 13;
              ascii_of_nat 10]%char →
         indexOf c (safeName filename) = None.
Proof.
  split_and!.
  - apply safeName_nonempty.
  - apply safeName_kept.
  - intros c Hc. apply (all_chars_indexOf kept); [apply safeName_kept|].
    repeat (apply elem_of_cons in Hc as [-> | Hc]; [reflexivity|]).
    by apply elem_of_nil in Hc.
Qed.

(** X15: the replacement of [safeName] keeps the length of the name, leaves
    exactly the names made of kept characters as they are, and [safeName]
    applied to its own result changes nothing. *)
Theorem safeName_idempotent (filename : option string) (s : string) :
  String.length (replace_unsafe s) = String.length s
  ∧ (replace_unsafe s = s ↔ all_chars kept s = true)
  ∧ (safeName (Some s) = s ↔ s ≠ "" ∧ all_chars kept s = true)
  ∧ safeName (Some (safeName filename)) = safeName filename.
Proof.
  assert (Hfix : ∀ t, t ≠ "" → all_chars kept t = true → safeName (Some t) = t).
  { intros t Ht Hk. simpl. apply replace_unsafe_fixed in Hk. rewrite Hk.
    by rewrite decide_False. }
  split_and!.
  - apply map_string_length.
  - apply replace_unsafe_fixed.
  - split; [|intros [? ?]; auto].
    intros H. rewrite <- H.
    split; [apply safeName_nonempty | apply safeName_kept].
  - apply Hfix; [apply safeName_nonempty | apply safeName_kept].
Qed.

Lemma star_not_slash_dot s :
  re_match (Star (NotOf ["/"; "."]%char)) s ↔
  indexOf "." s = None ∧ indexOf "/" s = None.
Proof.
  split.
  - intros H. remember (Star (NotOf ["/"; "."]%char)) as r eqn:Er.
    induction H; try discriminate; [done|].
    injection Er as ->. inversion H as [| |? c Hc| | | | |]; subst.
    rewrite append_cons, append_empty_l, !indexOf_None_cons.
    destruct IHre_match2 as [? ?]; [done|].
    rewrite !elem_of_cons, elem_of_nil in Hc. split_and!; auto.
  - induction s as [|c s IH]; [constructor|].
    rewrite !indexOf_None_cons. intros [[? ?] [? ?]].
    change (String c s) with (String c "" ++ s)%string.
    constructor; [|auto]. constructor.
    rewrite !elem_of_cons, elem_of_nil. intros [? | [? | []]]; done.
Qed.

Lemma extension_matches s :
  matches extension s = true ↔
  ∃ ext, s = String "." ext ∧ ext ≠ "" ∧ indexOf "." ext = None
         ∧ indexOf "/" ext = None.
Proof.
  rewrite matches_spec. unfold extension. split.
  - intros (s1 & s2 & -> & H1 & H2)%cat_inv. inversion H1; subst.
    apply cat_inv in H2 as (t1 & t2 & -> & Ht1 & Ht2).
    inversion Ht1 as [| |? c Hc| | | | |]; subst.
    apply star_not_slash_dot in Ht2 as [? ?].
    rewrite !elem_of_cons, elem_of_nil in Hc.
    eexists. split; [reflexivity|].
    rewrite append_cons, append_empty_l. split; [done|].
    rewrite !indexOf_None_cons. split_and!; auto.
  - intros (ext & -> & Hne & Hdot & Hslash).
    destruct ext as [|c ext]; [done|].
    apply indexOf_None_cons in Hdot as [? ?].
    apply indexOf_None_cons in Hslash as [? ?].
    change (String "." (String c ext))
      with (String "." "" ++ (String c "" ++ ext))%string.
    constructor; [constructor|]. constructor.
    + constructor. rewrite !elem_of_cons, elem_of_nil. intros [? | [? | []]]; done.
    + by apply star_not_slash_dot.
Qed.

Lemma extension_needs_dot s :
  indexOf "." s = None → matches extension s = false.
Proof.
  intros H. apply not_true_is_false.
  intros (ext & -> & _)%extension_matches.
  by apply indexOf_None_cons in H as [? _].
Qed.

Lemma remove_at_end_no_dot s :
  indexOf "." s = None → remove_at_end extension s = s.
Proof.
  induction s as [|c s IH]; [done|]. intros H.
  cbn [remove_at_end]. rewrite (extension_needs_dot _ H).
  apply indexOf_None_cons in H as [_ H]. by rewrite IH.
Qed.

Lemma remove_at_end_before_dot (base rest : string) :
  remove_at_end extension (base ++ String "." rest)%string
  = (base ++ remove_at_end extension (String "." rest))%string.
Proof.
  induction base as [|c base IH]; [done|].
  rewrite !append_cons. cbn [remove_at_end].
  replace (matches extension (String c (base ++ String "." rest)%string))
    with false; [by rewrite IH|].
  symmetry. apply not_true_is_false.
  intros (ext & [= -> <-] & _ & Hdot & _)%extension_matches.
  apply indexOf_None_app in Hdot as [_ Hdot].
  by apply indexOf_None_cons in Hdot as [? _].
Qed.

Lemma remove_at_end_last_dot (base ext : string) :
  indexOf "." ext = None →
  remove_at_end extension (base ++ String "." ext)%string
  = if bool_decide (ext ≠ "" ∧ indexOf "/" ext = None) then base
    else (base ++ String "." ext)%string.
Proof.
  intros Hdot. rewrite remove_at_end_before_dot.
  cbn [remove_at_end]. case_bool_decide as Hext.
  - replace (matches extension (String "." ext)) with true.
    + apply append_empty_r.
    + symmetry. apply extension_matches. exists ext. tauto.
  - replace (matches extension (String "." ext)) with false.
    + by rewrite (remove_at_end_no_dot _ Hdot).
    + symmetry. apply not_true_is_false.
      intros (ext' & [= <-] & ? & _ & ?)%extension_matches. tauto.
Qed.

(** X16: [handleDownload] cuts the name at its last dot when what follows
    the dot is not empty and holds no slash, and otherwise keeps the whole
    name; then it appends [.SerumPreset]. *)
Theorem downloadName_last_dot (base ext : string) :
  indexOf "." ext = None →
  downloadName (Some (base ++ String "." ext)%string)
  = ((if bool_decide (ext ≠ "" ∧ indexOf "/" ext = None) then base
      else base ++ String "." ext) ++ ".SerumPreset")%string.
Proof.
  intros Hdot. unfold downloadName. simpl default.
  by rewrite remove_at_end_last_dot.
Qed.

Lemma downloadName_last_dot_witness :
  downloadName (Some "lead.v2.json") = "lead.v2.SerumPreset"
  ∧ downloadName (Some "presets.v2/lead") = "presets.v2/lead.SerumPreset".
Proof.
  split.
  - exact (downloadName_last_dot "lead.v2" "json" eq_refl).
  - exact (downloadName_last_dot "presets" "v2/lead" eq_refl).
Defined.

Lemma remove_at_end_prefix s :
  ∃ rest, s = (remove_at_end extension s ++ rest)%string
          ∧ (indexOf "." s = None → rest = "").
Proof.
  induction s as [|c s (rest & IH & Hrest)].
  - exists "". done.
  - cbn [remove_at_end]. destruct (matches extension (String c s)) eqn:E.
    + exists (String c s). split; [done|].
      intros H%extension_needs_dot. congruence.
    + exists rest. rewrite append_cons, <- IH. split; [done|].
      intros [_ H]%indexOf_None_cons. auto.
Qed.

Lemma fileFilter_spec name :
  fileFilter name = true ↔
  ∃ base ext, name = (base ++ String "." ext)%string
              ∧ toLowerCase ext = "serumpreset".
Proof.
  unfold fileFilter. rewrite endsWith_spec. split.
  - intros [pre H]. unfold toLowerCase in H.
    apply map_string_app_inv in H as (a & b & -> & _ & Hb).
    destruct b as [|c ext]; [done|]. simpl in Hb. injection Hb as Hc Hext.
    exists a, ext. split; [|done]. do 2 f_equal.
    destruct c as [[] [] [] [] [] [] [] []]; vm_compute in Hc;
      first [discriminate Hc | reflexivity].
  - intros (base & ext & -> & Hext). exists (toLowerCase base).
    unfold toLowerCase in *. rewrite map_string_app. simpl.
    by rewrite Hext.
Qed.

(** X17: the name [handleDownload] gives always ends with [.SerumPreset]
    after a part the given name starts with, the whole name when it holds
    no dot; the upload filter of the server accepts it, as it accepts the
    name of the header of [/api/pack]; and [handleDownload] maps it to
    itself. *)
Theorem downloadName_accepted (filename : option string) :
  (∃ stem rest, default "edited-preset" filename = (stem ++ rest)%string
     ∧ downloadName filename = (stem ++ ".SerumPreset")%string
     ∧ (indexOf "." (default "edited-preset" filename) = None → rest = ""))
  ∧ fileFilter (downloadName filename) = true
  ∧ fileFilter (safeName filename ++ ".SerumPreset")%string = true
  ∧ downloadName (Some (downloadName filename)) = downloadName filename.
Proof.
  split_and!.
  - destruct (remove_at_end_prefix (default "edited-preset" filename))
      as (rest & H & Hrest).
    by exists (remove_at_end extension (default "edited-preset" filename)),
      rest.
  - apply fileFilter_spec. by eexists _, "SerumPreset".
  - apply fileFilter_spec. by eexists _, "SerumPreset".
  - unfold downloadName at 1. simpl default. unfold downloadName.
    change ".SerumPreset" with (String "." "SerumPreset").
    by rewrite (remove_at_end_last_dot _ "SerumPreset").
Qed.

(** X18: a name the upload filter accepts ends with a dot and
    [serumpreset] in some mix of cases, and for such a name
    [handleDownload] gives the part before that dot followed by
    [.SerumPreset]. *)
Theorem fileFilter_download (name : string) :
  fileFilter name = true →
  ∃ base ext, name = (base ++ String "." ext)%string
    ∧ toLowerCase ext = "serumpreset"
    ∧ downloadName (Some name) = (base ++ ".SerumPreset")%string.
Proof.
  intros (base & ext & -> & Hext)%fileFilter_spec.
  exists base, ext. split_and!; [done..|].
  unfold downloadName. simpl default.
  assert (Hdot : indexOf "." ext = None).
  { apply (indexOf_map_None lower_char); [reflexivity|].
    fold (toLowerCase ext). by rewrite Hext. }
  assert (Hslash : indexOf "/" ext = None).
  { apply (indexOf_map_None lower_char); [reflexivity|].
    fold (toLowerCase ext). by rewrite Hext. }
  rewrite (remove_at_end_last_dot _ _ Hdot).
  rewrite bool_decide_eq_true_2; [done|].
  split; [|done]. intros ->. discriminate Hext.
Qed.

Lemma fileFilter_download_witness :
  ∃ base ext, "Bass Growl.SERUMpreset" = (base ++ String "." ext)%string
    ∧ toLowerCase ext = "serumpreset"
    ∧ downloadName (Some "Bass Growl.SERUMpreset")
      = (base ++ ".SerumPreset")%string.
Proof. apply (fileFilter_download "Bass Growl.SERUMpreset"). reflexivity. Defined.

End FileNameFacts.

(** ** [parsePatchResponse] *)

Section ResponseFacts.

Variable JSON_parse : string → option json.

(** X19: [parsePatchResponse] drops the text before the first [[] and
    after the last []]: when no [[] comes before the opening bracket and no
    []] after the closing one, the parser is called on the bracketed part
    alone, and the answer is the array it reads there, or an error when it
    reads something else or nothing. *)
Theorem parsePatchResponse_brackets (pre mid post : string) :
  indexOf "[" pre = None → indexOf "]" post = None →
  parsePatchResponse JSON_parse
    (Some (pre ++ String "[" (mid ++ String "]" post))%string)
  = match JSON_parse (String "[" (mid ++ "]"))%string with
    | Some (JArr items) => Ok (JArr items)
    | Some _ => Err NotAnArray
    | None => Err SyntaxError
    end.
Proof.
  intros Hpre Hpost. unfold parsePatchResponse.
  rewrite decide_False by (by destruct pre).
  rewrite (indexOf_first _ _ _ Hpre).
  replace (pre ++ String "[" (mid ++ String "]" post))%string
    with ((pre ++ String "[" mid) ++ String "]" post)%string
    by (by rewrite <- append_assoc).
  rewrite (lastIndexOf_last _ _ _ Hpost), length_app. simpl String.length.
  replace (String.length pre + S (String.length mid) <? String.length pre)%nat
    with false by (symmetry; apply Nat.ltb_ge; lia).
  unfold slice.
  replace (String.length pre + S (String.length mid) + 1 - String.length pre)%nat
    with (String.length (String "[" (mid ++ "]"))%string)
    by (simpl; rewrite length_app; simpl; lia).
  replace ((pre ++ String "[" mid) ++ String "]" post)%string
    with (pre ++ String "[" (mid ++ "]") ++ post)%string.
  - by rewrite substring_middle.
  - rewrite <- !append_assoc, !append_cons, <- !append_assoc. done.
Qed.

(** X20: the other answers of [parsePatchResponse]: no content and empty
    content give the empty patch without a call of the parser; a text that
    is not of the shape of X19, that is without [[], without []], or whose
    last []] comes before its first [[], gives the error of the missing
    array; and a returned value is always an array. *)
Theorem parsePatchResponse_cases (content : option string) :
  (content = None ∨ content = Some "" →
     parsePatchResponse JSON_parse content = Ok (JArr []))
  ∧ (∀ text, content = Some text →
       text = ""
       ∨ parsePatchResponse JSON_parse content = Err NoJsonArray
       ∨ ∃ pre mid post,
           text = (pre ++ String "[" (mid ++ String "]" post))%string
           ∧ indexOf "[" pre = None ∧ indexOf "]" post = None)
  ∧ (∀ v, parsePatchResponse JSON_parse content = Ok v →
       ∃ items, v = JArr items).
Proof.
  split_and!.
  - by intros [-> | ->].
  - intros text ->. destruct (decide (text = "")) as [|Hne]; [by left|].
    right. unfold parsePatchResponse. rewrite decide_False by done.
    destruct (indexOf "[" text) as [start|] eqn:Estart; [|by left].
    destruct (lastIndexOf "]" text) as [stop|] eqn:Estop; [|by left].
    destruct (stop <? start)%nat eqn:Elt; [by left|]. right.
    apply Nat.ltb_ge in Elt.
    apply indexOf_Some in Estart as (pre & rest & -> & Hpre & <-).
    apply lastIndexOf_Some in Estop as (init & post & Hsplit & Hpost & <-).
    destruct (append_split _ _ _ _ Hsplit Elt) as (m & -> & Hrest).
    destruct m as [|c mid]; [done|].
    rewrite append_cons in Hrest. injection Hrest as <- ->.
    by exists pre, mid, post.
  - unfold parsePatchResponse. intros v.
    destruct content as [text|]; [|intros [= <-]; eauto].
    destruct (decide (text = "")); [intros [= <-]; eauto|].
    destruct (indexOf "[" text); [|done].
    destruct (lastIndexOf "]" text); [|done].
    destruct (_ <? _)%nat; [done|].
    destruct (JSON_parse _) as [[]|]; try done. intros [= <-]. eauto.
Qed.

End ResponseFacts.

Lemma parsePatchResponse_brackets_witness :
  let parse := λ s : string, if decide (s = "[]") then Some (JArr []) else None in
  parsePatchResponse parse (Some "Sure: [] done") = Ok (JArr []).
Proof.
  intros parse.
  exact (parsePatchResponse_brackets parse "Sure: " "" " done" eq_refl eq_refl).
Defined.
